(** * fetch_hubspot_data.py: a shallow embedding and its specification

    The script fetches HubSpot contacts over a 24-hour window, classifies
    them and renders count reports.  It is embedded here as follows.

    - Python [str] is [string]; only ASCII case folding is modelled.
    - A Python [float] is a mantissa and an exponent ([Float.t]), with
      division and multiplication rounded to 53 bits.
    - A JSON object used as a dictionary is a [gmap string _]; a Python
      [set] of strings is a [gset string], and the order in which Python
      iterates over a set is a parameter ([SetIteration]).
    - The remote API is a state-passing responder [post]; every function
      that performs requests runs in the monad [M], which threads the
      state of the API, records the calls to [time.sleep] and
      [requests.post] in a trace and propagates exceptions.
    - [while True] takes fuel; running out of fuel is the outcome
      [Diverge], distinct from every Python exception. *)

From Stdlib Require Import ZArith Lia Ascii String.
From stdpp Require Import gmap strings list sorting pretty.

Local Open Scope string_scope.
Local Open Scope Z_scope.
Local Open Scope list_scope.

(** ** Python strings *)

Module Str.

(** [str.lower] on one ASCII character. *)
Definition lower_ascii (c : ascii) : ascii :=
  let n := N_of_ascii c in
  if ((65 <=? n) && (n <=? 90))%N then ascii_of_N (n + 32) else c.

(** [s.lower()] *)
Fixpoint lower (s : string) : string :=
  match s with
  | EmptyString => EmptyString
  | String c s' => String (lower_ascii c) (lower s')
  end.

(** [s.startswith(k)] *)
Fixpoint startswith (k s : string) : bool :=
  match k, s with
  | EmptyString, _ => true
  | String _ _, EmptyString => false
  | String a k', String b s' => bool_decide (a = b) && startswith k' s'
  end.

(** [k in s] for two strings: [k] occurs in [s] as a contiguous run. *)
Fixpoint contains (k s : string) : bool :=
  startswith k s ||
  match s with
  | EmptyString => false
  | String _ s' => contains k s'
  end.

(** Truth value of a string: only the empty string is falsy. *)
Definition truthy (s : string) : bool := negb (bool_decide (s = "")).

(** [sep.join(ls)] *)
Fixpoint join (sep : string) (ls : list string) : string :=
  match ls with
  | [] => ""
  | [x] => x
  | x :: rest => x +:+ sep +:+ join sep rest
  end.

(** The newline character written ["\n"] in the source. *)
Definition nl : string := String (ascii_of_N 10) "".

(** What [k in s] means: [s] splits around an occurrence of [k]. *)
Definition substring_of (k s : string) : Prop :=
  ∃ a b, s = a +:+ k +:+ b.

(** Case-insensitive containment, the test of lines 105 and 217. *)
Definition ci_substring_of (k s : string) : Prop :=
  substring_of (lower k) (lower s).

End Str.

(** ** Python floats *)

Module Float.

(** A finite [float] (IEEE 754 binary64), kept as the pair of integers
    [mantissa] and [exponent] that denotes [mantissa * 2^exponent].
    Overflow, underflow and the special values are left out: the numbers
    of this script are far from the limits of the format. *)
Record t := Make {
  mantissa : Z;
  exponent : Z
}.

(** The integer nearest to [a / b], for [0 < b]; of two nearest ones the
    even one. *)
Definition div_rne (a b : Z) : Z :=
  let q := a / b in
  let r := a mod b in
  match 2 * r ?= b with
  | Lt => q
  | Gt => q + 1
  | Eq => if Z.even q then q else q + 1
  end.

(** The [e] with [2^e <= a / b < 2^(e + 1)], for [0 < a] and [0 < b]. *)
Definition binade (a b : Z) : Z :=
  let e := Z.log2 a - Z.log2 b in
  if b * 2 ^ Z.max 0 e <=? a * 2 ^ Z.max 0 (- e) then e else e - 1.

(** [a / b] on two [int]s, for [0 < b]: the quotient rounded to the
    nearest [float], which has a mantissa of 53 bits. *)
Definition true_divide (a b : Z) : t :=
  if a =? 0 then Make 0 0
  else
    let k := binade (Z.abs a) b - 52 in
    Make (div_rne (a * 2 ^ Z.max 0 (- k)) (b * 2 ^ Z.max 0 k)) k.

(** The [float] nearest to [m * 2^k]. *)
Definition round (m k : Z) : t :=
  if Z.abs m <? 2 ^ 53 then Make m k
  else
    let s := Z.log2 (Z.abs m) - 52 in
    Make (div_rne m (2 ^ s)) (k + s).

(** [float(n)] *)
Definition of_int (n : Z) : t := round n 0.

(** [x * y] *)
Definition mul (x y : t) : t :=
  round (mantissa x * mantissa y) (exponent x + exponent y).

(** [int(x)]: truncation toward zero. *)
Definition to_int (x : t) : Z :=
  if 0 <=? exponent x then mantissa x * 2 ^ exponent x
  else Z.quot (mantissa x) (2 ^ (- exponent x)).

End Float.

(** ** Contacts *)

(** A property value of a contact: JSON [null] or a string. *)
Inductive pvalue :=
  | PNull
  | PStr (s : string).

Global Instance pvalue_eq_dec : EqDecision pvalue.
Proof. solve_decision. Defined.

(** A contact of the search API.  [properties] is [None] when the JSON
    object has no ["properties"] key. *)
Record contact := Contact {
  contact_id : string;
  properties : option (gmap string pvalue)
}.

(** [l.get("properties", {}).get(name)]: the value, [None] when absent. *)
Definition get_prop (l : contact) (name : string) : pvalue :=
  default PNull (default ∅ (properties l) !! name).

(** Truth value of a property value. *)
Definition truthy (v : pvalue) : bool :=
  match v with
  | PNull => false
  | PStr s => Str.truthy s
  end.

(** [v or ""], then read as a string. *)
Definition or_empty (v : pvalue) : string :=
  match v with
  | PNull => ""
  | PStr s => s
  end.

(** ** Categorize leads (lines 101-108) *)

Definition filter_by_type (leads : list contact) (lead_type : string) : list contact :=
  filter (λ l, get_prop l "lead_type" = PStr lead_type) leads.

Definition match_lead_source (leads : list contact) (keyword : string) : list contact :=
  filter (λ l, Str.contains (Str.lower keyword)
                 (Str.lower (or_empty (get_prop l "lead_source")))) leads.

Definition match_blank_lead_source (leads : list contact) : list contact :=
  filter (λ l, negb (truthy (get_prop l "lead_source"))) leads.

(** The dictionary [lead_types] of lines 110-116. *)
Definition lead_types (leads_allocate : list contact) : gmap string (list contact) :=
  <["self_gen_lead" := filter_by_type leads_allocate "Self Gen"]>
  (<["nurture_lead" := filter_by_type leads_allocate "Nurture"]>
  (<["resubmitted_lead" := filter_by_type leads_allocate "Resubmitted"]>
  (<["duplicate_lead" := filter_by_type leads_allocate "Duplicate"]>
  (<["new_lead" := filter_by_type leads_allocate "New Lead"]> ∅)))).

(** The dictionary [lead_sources] of lines 118-122: one entry per
    configured source, keyed by its lower-case form (a later source with
    the same key replaces the earlier entry), then ["no_lead_source"]. *)
Definition lead_sources (main_lead_source : list string) (leads_create : list contact)
  : gmap string (list contact) :=
  <["no_lead_source" := match_blank_lead_source leads_create]>
  (foldl (λ d source, <[Str.lower source := match_lead_source leads_create source]> d)
         ∅ main_lead_source).

(** [sum(len(v) for v in d.values())] *)
Definition sum_len (d : gmap string (list contact)) : Z :=
  map_fold (λ _ v acc, acc + Z.of_nat (length v)) 0 d.

(** The five lead-type values of lines 111-115. *)
Definition named_lead_types : list string :=
  ["New Lead"; "Duplicate"; "Resubmitted"; "Nurture"; "Self Gen"].

(** Line 245: the residual lead-type count. *)
Definition other_lead (leads_allocate : list contact) : Z :=
  Z.of_nat (length leads_allocate) - sum_len (lead_types leads_allocate).

(** Line 250: the residual lead-source count. *)
Definition other_source (main_lead_source : list string) (leads_create : list contact) : Z :=
  Z.of_nat (length leads_create) - sum_len (lead_sources main_lead_source leads_create).

(** ** Time range: yesterday 17:00 to today 16:59, GMT+7 (lines 17-25) *)

(** An aware [datetime] whose [tzinfo] is the fixed offset [tz_gmt7]: the
    wall-clock fields, with the calendar date kept as the number of days
    since 1970-01-01. *)
Record datetime := Datetime {
  day : Z;
  hour : Z;
  minute : Z;
  second : Z;
  microsecond : Z
}.

(** [timedelta(hours=7)], in seconds. *)
Definition utcoffset : Z := 7 * 3600.

(** [datetime.datetime.now(tz=tz_gmt7)] when the clock reads [clock]
    microseconds since the Unix epoch. *)
Definition datetime_now (clock : Z) : datetime :=
  let l := clock + utcoffset * 1000000 in
  let tod := l mod 86400000000 in
  {| day := l / 86400000000;
     hour := tod / 3600000000;
     minute := (tod / 60000000) mod 60;
     second := (tod / 1000000) mod 60;
     microsecond := tod mod 1000000 |}.

(** [d - timedelta(days=n)] *)
Definition minus_days (d : datetime) (n : Z) : datetime :=
  {| day := day d - n; hour := hour d; minute := minute d;
     second := second d; microsecond := microsecond d |}.

(** [d.replace(hour=h, minute=m, second=s, microsecond=us)] *)
Definition replace (d : datetime) (h m s us : Z) : datetime :=
  {| day := day d; hour := h; minute := m; second := s; microsecond := us |}.

(** Microseconds from the Unix epoch to the instant [d] denotes. *)
Definition epoch_microseconds (d : datetime) : Z :=
  (day d * 86400 + hour d * 3600 + minute d * 60 + second d - utcoffset) * 1000000
  + microsecond d.

(** [d.timestamp()]: seconds since the epoch, the quotient of two
    integers rounded to a [float]. *)
Definition timestamp (d : datetime) : Float.t :=
  Float.true_divide (epoch_microseconds d) 1000000.

Definition start_time (clock : Z) : datetime :=
  let now := datetime_now clock in
  let yesterday := minus_days now 1 in
  replace yesterday 17 0 0 0.

Definition end_time (clock : Z) : datetime :=
  let now := datetime_now clock in
  replace now 16 59 59 999999.

Definition start_timestamp (clock : Z) : Z :=
  Float.to_int (Float.mul (timestamp (start_time clock)) (Float.of_int 1000)).

Definition end_timestamp (clock : Z) : Z :=
  Float.to_int (Float.mul (timestamp (end_time clock)) (Float.of_int 1000)).

(** Epoch milliseconds of the wall-clock reading [h:m:s.ms] on local day
    [d] at UTC+7: what a timestamp is compared with. *)
Definition wall_clock_ms (d h m s ms : Z) : Z :=
  ((d * 86400 + h * 3600 + m * 60 + s) - 7 * 3600) * 1000 + ms.

(** [d] is the calendar day, at UTC+7, that contains the instant [clock]. *)
Definition local_day_of (clock d : Z) : Prop :=
  d * 86400000000 <= clock + 7 * 3600 * 1000000 < (d + 1) * 86400000000.

(** ** The search API *)

Inductive operator := BETWEEN | EQ.

(** A filter value: a timestamp or a string. *)
Inductive fvalue :=
  | FInt (z : Z)
  | FStr (s : string).

(** One entry of ["filters"]; [highValue] is present for [BETWEEN] only. *)
Record filter_spec := Filter {
  propertyName : string;
  operator_of : operator;
  value : fvalue;
  highValue : option fvalue
}.

(** The JSON body of a request.  ["filterGroups"] always holds the single
    group [{"filters": filters}]; ["after"] is a key only when set. *)
Record payload := Payload {
  filters_of : list filter_spec;
  properties_of : list string;
  limit_of : Z;
  after_of : option string
}.

(** The value of ["next"] in a response. *)
Record paging_next := PagingNext { after : option string }.

(** The value of ["paging"] in a response. *)
Record paging_info := Paging { next : option paging_next }.

(** [response.json()]; a key that is absent is [None]. *)
Record body := Body {
  results : option (list contact);
  paging : option paging_info
}.

Record response := Response {
  status_code : Z;
  text : string;
  json : body
}.

(** What the script does to the outside world, in order.  Durations are
    in milliseconds: [time.sleep(0.2)] is [Sleep 200]. *)
Inductive event :=
  | Sleep (ms : Z)
  | Post (p : payload).

(** [raise Exception(msg)] *)
Inductive exn := Exception (msg : string).

Inductive outcome (A : Type) :=
  | Return (a : A)
  | Raise (e : exn)
  | Diverge.
Arguments Return {A} a.
Arguments Raise {A} e.
Arguments Diverge {A}.

(** The result of running a computation: its outcome, the state the API
    is left in, and the events performed. *)
Record run (W A : Type) := Run {
  outcome_of : outcome A;
  world_of : W;
  trace_of : list event
}.
Arguments Run {W A} _ _ _.
Arguments outcome_of {W A} _.
Arguments world_of {W A} _.
Arguments trace_of {W A} _.

Definition M (W A : Type) : Type := W → run W A.

Definition ret {W A} (a : A) : M W A := λ w, Run (Return a) w [].

Definition bind {W A B} (m : M W A) (k : A → M W B) : M W B := λ w,
  match m w with
  | Run (Return a) w1 t1 =>
      match k a w1 with
      | Run o w2 t2 => Run o w2 (t1 ++ t2)
      end
  | Run (Raise e) w1 t1 => Run (Raise e) w1 t1
  | Run Diverge w1 t1 => Run Diverge w1 t1
  end.

Definition raise {W A} (e : exn) : M W A := λ w, Run (Raise e) w [].

Definition diverge {W A} : M W A := λ w, Run Diverge w [].

(** [time.sleep(ms / 1000)] *)
Definition sleep {W} (ms : Z) : M W unit := λ w, Run (Return tt) w [Sleep ms].

Global Instance M_ret {W} : MRet (M W) := λ A, ret.
Global Instance M_bind {W} : MBind (M W) := λ A B k m, bind m k.

(** [range(n)] *)
Definition range (n : Z) : list Z := Z.of_nat <$> seq 0 (Z.to_nat n).

(** Truth value of a cursor: [None] and the empty string are falsy. *)
Definition truthy_cursor (c : option string) : bool :=
  match c with
  | None => false
  | Some s => Str.truthy s
  end.

(** [data.get("paging", {}).get("next", {}).get("after")] *)
Definition next_after (data : body) : option string :=
  match paging data with
  | None => None
  | Some p =>
      match next p with
      | None => None
      | Some n => after n
      end
  end.

(** [properties or ["email"]] *)
Definition properties_or_email (properties : option (list string)) : list string :=
  match properties with
  | None | Some [] => ["email"]
  | Some l => l
  end.

Definition default_limit : Z := 100.
Definition default_retries : Z := 3.

Section Api.

(** The remote service: how it answers a request and what state it is
    in afterwards. *)
Context {World : Type}.
Variable post : payload → World → response * World.

(** [requests.post(url, headers=headers, json=payload)]; [url] and
    [headers] are the same in every call. *)
Definition requests_post (p : payload) : M World response := λ w,
  let '(r, w') := post p w in Run (Return r) w' [Post p].

(** Lines 48-58: [for attempt in range(retries): ... else: raise ...],
    over the attempts that remain. *)
Fixpoint for_attempt (p : payload) (attempts : list Z) : M World response :=
  match attempts with
  | [] => raise (Exception "Exceeded retry limit for HubSpot API.")
  | attempt :: rest =>
      sleep 200 ;;
      response ← requests_post p ;
      if (status_code response =? 200)%Z then ret response
      else if (status_code response =? 429)%Z then
        (sleep ((attempt + 1) * 500) ;;
         for_attempt p rest)
      else
        raise (Exception ("HubSpot API error: " +:+ pretty (status_code response)
                            +:+ " - " +:+ text response))
  end.

(** Lines 40-46: the request body for the page at cursor [after]. *)
Definition page_payload (filters : list filter_spec) (properties : option (list string))
    (limit : Z) (after : option string) : payload :=
  {| filters_of := filters;
     properties_of := properties_or_email properties;
     limit_of := limit;
     after_of := if truthy_cursor after then after else None |}.

(** Lines 39-64: the [while True] loop, with [all_results] and [after]
    as its state. *)
Fixpoint while_pages (fuel : nat) (filters : list filter_spec)
    (properties : option (list string)) (limit retries : Z)
    (all_results : list contact) (after : option string) : M World (list contact) :=
  match fuel with
  | O => diverge
  | S fuel' =>
      response ← for_attempt (page_payload filters properties limit after) (range retries) ;
      let data := json response in
      let all_results := all_results ++ default [] (results data) in
      let after := next_after data in
      if negb (truthy_cursor after) then ret all_results
      else while_pages fuel' filters properties limit retries all_results after
  end.

Definition fetch_all_hubspot_contacts (fuel : nat) (filters : list filter_spec)
    (properties : option (list string)) (limit retries : Z) : M World (list contact) :=
  while_pages fuel filters properties limit retries [] None.

End Api.

(** ** Iterating over a Python set *)

(** [list(s)] and [for x in s] visit the elements of a set once each, in
    an order the language leaves open (for strings it changes with the
    hash seed of the process). *)
Class SetIteration := {
  set_list : gset string → list string;
  set_list_perm : ∀ X, set_list X ≡ₚ elements X
}.

(** [sorted(l)] on strings: ascending code-point order. *)
Definition sorted (l : list string) : list string := merge_sort String.le l.

(** ** Configuration (lines 9-13) *)

(** [cc_team] is only ever tested with [in]; [main_lead_source] holds the
    names after [strip()]. *)
Record config := Config {
  cc_team : gset string;
  sales_team : gmap string string;
  main_lead_source : list string
}.

(** ** Lifecycle-stage fetches (lines 126-133) *)

Record lifecycle := Lifecycle {
  contact_count : list contact;
  take_over_call_count : list contact;
  take_over_text_count : list contact;
  zoom_book_count : list contact;
  zoom_attend_count : list contact;
  deal_negotiation_count : list contact
}.

(** [lifecycle_stage.items()], in insertion order. *)
Definition lifecycle_items (ls : lifecycle) : list (string * list contact) :=
  [("contact_count", contact_count ls);
   ("take_over_call_count", take_over_call_count ls);
   ("take_over_text_count", take_over_text_count ls);
   ("zoom_book_count", zoom_book_count ls);
   ("zoom_attend_count", zoom_attend_count ls);
   ("deal_negotiation_count", deal_negotiation_count ls)].

(** The contacts visited by
    [for group in lifecycle_stage.values() for contact in group]. *)
Definition lifecycle_contacts (ls : lifecycle) : list contact :=
  concat ((lifecycle_items ls).*2).

(** The value of property [name] when it is truthy. *)
Definition truthy_prop (name : string) (c : contact) : option string :=
  match get_prop c name with
  | PStr s => if Str.truthy s then Some s else None
  | PNull => None
  end.

(** The element the comprehension of lines 137-142 yields for [c], if
    any. *)
Definition direct_owner (cfg : config) (c : contact) : option string :=
  match truthy_prop "hubspot_owner_id" c with
  | Some s => if bool_decide (s ∉ cc_team cfg) then Some s else None
  | None => None
  end.

(** Lines 137-142. *)
Definition contact_owners_with_activity (cfg : config) (ls : lifecycle) : gset string :=
  list_to_set (omap (direct_owner cfg) (lifecycle_contacts ls)).

(** Lines 146-151. *)
Definition secondary_owners_with_activity (ls : lifecycle) : gset string :=
  list_to_set (omap (truthy_prop "secondary_owner") (lifecycle_contacts ls)).

(** Lines 94-97, before [list(...)]. *)
Definition lead_sources_with_activity (lead_source_create_count : list contact) : gset string :=
  list_to_set (omap (truthy_prop "lead_source") lead_source_create_count).

(** ** Lead-source grouping (lines 210-222) *)

(** [grouped_sources[key].append(source)]; every key used is a key of the
    dictionary (see [group_sources_keys]). *)
Definition append_to (key source : string) (grouped : gmap string (list string))
  : gmap string (list string) :=
  alter (λ l, l ++ [source]) key grouped.

(** Lines 210-211. *)
Definition grouped_sources_init (main_lead_source : list string) : gmap string (list string) :=
  <["Other" := []]> (foldl (λ d source, <[source := []]> d) ∅ main_lead_source).

(** Lines 216-220: the inner loop, over the canonical names that remain;
    the boolean is [matched]. *)
Fixpoint for_main_source (source : string) (mains : list string)
    (grouped : gmap string (list string)) : gmap string (list string) * bool :=
  match mains with
  | [] => (grouped, false)
  | main_source :: rest =>
      if Str.truthy source && Str.truthy main_source
         && Str.contains (Str.lower main_source) (Str.lower source)
      then (append_to main_source source grouped, true)
      else for_main_source source rest grouped
  end.

(** Lines 215-222: the body of the outer loop. *)
Definition group_source (main_lead_source : list string)
    (grouped : gmap string (list string)) (source : string) : gmap string (list string) :=
  let '(grouped, matched) := for_main_source source main_lead_source grouped in
  if negb matched && Str.truthy source then append_to "Other" source grouped
  else grouped.

Definition group_sources (main_lead_source lead_source_with_activity : list string)
  : gmap string (list string) :=
  foldl (group_source main_lead_source) (grouped_sources_init main_lead_source)
        lead_source_with_activity.

(** ** The output record (lines 242-260) *)

Inductive oval :=
  | OInt (z : Z)
  | OStr (s : string).

(** [{k: len(v) for k, v in d.items()}] *)
Definition lens (d : gmap string (list contact)) : gmap string oval :=
  (λ v, OInt (Z.of_nat (length v))) <$> d.

(** The dictionary display of lines 242-260.  Items are entered from left
    to right and a later item replaces an earlier one with the same key,
    so each later part is laid over the earlier ones. *)
Definition output (cfg : config) (leads_allocate leads_create : list contact)
    (lifecycle_stage : lifecycle) (output_cc_to output_sales_direct output_lead_source : list string)
  : gmap string oval :=
  let lead_sources := lead_sources (main_lead_source cfg) leads_create in
  <["Lead Source Report" := OStr (Str.join Str.nl output_lead_source)]>
  (<["Sales Direct Report" := OStr (Str.join Str.nl output_sales_direct)]>
  (<["CC TO Report" := OStr (Str.join Str.nl output_cc_to)]>
  (lens (list_to_map (lifecycle_items lifecycle_stage)) ∪
  (<["total_lead_create" := OInt (Z.of_nat (length leads_create))]>
  (<["other_source" := OInt (other_source (main_lead_source cfg) leads_create)]>
  (lens lead_sources ∪
  (<["total_lead_allocate" := OInt (Z.of_nat (length leads_allocate))]>
  (<["other_lead" := OInt (other_lead leads_allocate)]>
  (lens (lead_types leads_allocate)))))))))).

(** ** Metrics and reports (lines 70-91 and 157-238) *)

Section Script.

Context {World : Type}.
Variable post : payload → World → response * World.
Context `{SetIteration}.
Variable cfg : config.

(** What the clock reads when the script starts, in microseconds since
    the Unix epoch. *)
Variable clock : Z.

Definition between_filter (property_name : string) : list filter_spec :=
  [{| propertyName := property_name;
      operator_of := BETWEEN;
      value := FInt (start_timestamp clock);
      highValue := Some (FInt (end_timestamp clock)) |}].

Definition eq_filter (property_name value : string) : list filter_spec :=
  [{| propertyName := property_name;
      operator_of := EQ;
      value := FStr value;
      highValue := None |}].

(** A call [fetch_all_hubspot_contacts(filters, properties)] with the
    default [limit] and [retries]. *)
Definition fetch (fuel : nat) (filters : list filter_spec)
    (properties : option (list string)) : M World (list contact) :=
  fetch_all_hubspot_contacts post fuel filters properties default_limit default_retries.

Definition get_count_contact_owner (fuel : nat) (property_name sales_id : string)
  : M World nat :=
  let filters := between_filter property_name ++ eq_filter "hubspot_owner_id" sales_id in
  r ← fetch fuel filters None ; mret (length r).

Definition get_count_secondary_owner (fuel : nat) (property_name sales_id : string)
    (takeover_type : option string) : M World nat :=
  let filters := between_filter property_name ++ eq_filter "secondary_owner" sales_id in
  let filters :=
    match takeover_type with
    | Some t => if Str.truthy t then filters ++ eq_filter "takeover_type" t else filters
    | None => filters
    end in
  r ← fetch fuel filters None ; mret (length r).

Definition get_count_lead_source (fuel : nat) (source : string) : M World nat :=
  let filters := between_filter "createdate" ++ eq_filter "lead_source" source in
  r ← fetch fuel filters None ; mret (length r).

Definition zoom_booked : string := "date_entered__zoom_booked__new_lifecycle_stage_pipeline__".
Definition zoom_attended : string := "date_entered__zoom_attended__new_lifecycle_stage_pipeline__".
Definition deal_negotiation : string := "date_entered__deal_negotiation__new_lifecycle_stage_pipeline__".

(** [sales_team.get(sales_id, sales_id)] *)
Definition sales_name_of (sales_id : string) : string :=
  default sales_id (sales_team cfg !! sales_id).

(** The paragraph appended at lines 181-186. *)
Definition sales_direct_paragraph (sales_name : string) (zoom_book attend deal : nat) : string :=
  sales_name +:+ Str.nl
  +:+ " Zoom Book: " +:+ pretty zoom_book +:+ Str.nl
  +:+ " Attend: " +:+ pretty attend +:+ Str.nl
  +:+ " Deal Negotiation: " +:+ pretty deal +:+ Str.nl.

(** The paragraph appended at lines 198-205. *)
Definition cc_to_paragraph (sales_name : string) (to_call to_text zoom_book attend deal : nat)
  : string :=
  sales_name +:+ Str.nl
  +:+ " TO Call: " +:+ pretty to_call +:+ Str.nl
  +:+ " TO Text: " +:+ pretty to_text +:+ Str.nl
  +:+ " Zoom Book: " +:+ pretty zoom_book +:+ Str.nl
  +:+ " Attend: " +:+ pretty attend +:+ Str.nl
  +:+ " Deal Negotiation: " +:+ pretty deal +:+ Str.nl.

(** Lines 174-186: the loop over the owners that remain, with the list
    built so far. *)
Fixpoint for_sales_direct (fuel : nat) (owners : list string)
    (output_sales_direct : list string) : M World (list string) :=
  match owners with
  | [] => mret output_sales_direct
  | sales_id :: rest =>
      let sales_name := sales_name_of sales_id in
      zoom_book ← get_count_contact_owner fuel zoom_booked sales_id ;
      attend ← get_count_contact_owner fuel zoom_attended sales_id ;
      deal ← get_count_contact_owner fuel deal_negotiation sales_id ;
      for_sales_direct fuel rest
        (output_sales_direct ++ [sales_direct_paragraph sales_name zoom_book attend deal])
  end.

(** Lines 189-205. *)
Fixpoint for_cc_to (fuel : nat) (owners : list string)
    (output_cc_to : list string) : M World (list string) :=
  match owners with
  | [] => mret output_cc_to
  | sales_id :: rest =>
      let sales_name := sales_name_of sales_id in
      to_call ← get_count_secondary_owner fuel "takeover_date_time" sales_id (Some "TO Call") ;
      to_text ← get_count_secondary_owner fuel "takeover_date_time" sales_id (Some "TO Text") ;
      zoom_book ← get_count_secondary_owner fuel zoom_booked sales_id None ;
      attend ← get_count_secondary_owner fuel zoom_attended sales_id None ;
      deal ← get_count_secondary_owner fuel deal_negotiation sales_id None ;
      for_cc_to fuel rest
        (output_cc_to ++ [cc_to_paragraph sales_name to_call to_text zoom_book attend deal])
  end.

(** Lines 231-234: the loop over the sub-sources that remain, with
    [main_count] and [sub_lines] as its state. *)
Fixpoint for_sub_source (fuel : nat) (sub_sources : list string)
    (main_count : nat) (sub_lines : list string) : M World (nat * list string) :=
  match sub_sources with
  | [] => mret (main_count, sub_lines)
  | sub_source :: rest =>
      count ← get_count_lead_source fuel sub_source ;
      for_sub_source fuel rest (main_count + count)%nat
        (sub_lines ++ [sub_source +:+ ": " +:+ pretty count])
  end.

(** Line 226: the sub-sources of a bucket, in report order. *)
Definition sub_sources_of (grouped_sources : gmap string (list string))
    (main_source : string) : list string :=
  sorted (set_list (list_to_set (default [] (grouped_sources !! main_source)))).

(** Lines 225-238: the loop over the bucket names that remain. *)
Fixpoint for_bucket (fuel : nat) (grouped_sources : gmap string (list string))
    (names : list string) (output_lead_source : list string) : M World (list string) :=
  match names with
  | [] => mret output_lead_source
  | main_source :: rest =>
      let sub_sources := sub_sources_of grouped_sources main_source in
      match sub_sources with
      | [] => for_bucket fuel grouped_sources rest output_lead_source
      | _ :: _ =>
          '(main_count, sub_lines) ← for_sub_source fuel sub_sources 0%nat [] ;
          for_bucket fuel grouped_sources rest
            (output_lead_source ++ [main_source +:+ ": " +:+ pretty main_count]
               ++ sub_lines ++ [""])
      end
  end.

(** Lines 209-238. *)
Definition build_lead_source_report (fuel : nat) (lead_source_with_activity : list string)
  : M World (list string) :=
  let grouped_sources := group_sources (main_lead_source cfg) lead_source_with_activity in
  for_bucket fuel grouped_sources (main_lead_source cfg ++ ["Other"]) [].

Definition owner_properties : option (list string) :=
  Some ["secondary_owner"; "hubspot_owner_id"].

(** The whole script, top to bottom. *)
Definition script (fuel : nat) : M World (gmap string oval) :=
  let allocate_filters :=
    between_filter "date_entered__new_lead__new_lifecycle_stage_pipeline__" in
  let create_filters := between_filter "createdate" in
  let properties := Some ["email"; "lead_type"; "lead_source"] in
  leads_allocate ← fetch fuel allocate_filters properties ;
  leads_create ← fetch fuel create_filters properties ;
  lead_source_create_count ← fetch fuel (between_filter "createdate") (Some ["lead_source"]) ;
  let lead_source_with_activity :=
    set_list (lead_sources_with_activity lead_source_create_count) in
  c1 ← fetch fuel
         (between_filter "date_entered__contact__new_lifecycle_stage_pipeline__")
         owner_properties ;
  c2 ← fetch fuel (between_filter "takeover_date_time" ++ eq_filter "takeover_type" "TO Call")
         owner_properties ;
  c3 ← fetch fuel (between_filter "takeover_date_time" ++ eq_filter "takeover_type" "TO Text")
         owner_properties ;
  c4 ← fetch fuel (between_filter zoom_booked) owner_properties ;
  c5 ← fetch fuel (between_filter zoom_attended) owner_properties ;
  c6 ← fetch fuel (between_filter deal_negotiation) owner_properties ;
  let lifecycle_stage := Lifecycle c1 c2 c3 c4 c5 c6 in
  output_sales_direct ←
    for_sales_direct fuel (set_list (contact_owners_with_activity cfg lifecycle_stage)) [] ;
  output_cc_to ←
    for_cc_to fuel (set_list (secondary_owners_with_activity lifecycle_stage)) [] ;
  output_lead_source ← build_lead_source_report fuel lead_source_with_activity ;
  mret (output cfg leads_allocate leads_create lifecycle_stage
          output_cc_to output_sales_direct output_lead_source).

End Script.

(** * Specification vocabulary *)

(** ** Traces *)

(** The requests in a trace, in order. *)
Definition posts (t : list event) : list payload :=
  omap (λ e, match e with Post p => Some p | Sleep _ => None end) t.

(** The sleeps in a trace, in order. *)
Definition sleeps (t : list event) : list Z :=
  omap (λ e, match e with Sleep ms => Some ms | Post _ => None end) t.

(** The sleep after the 429 answer to attempt [attempt]:
    [(attempt + 1) * 0.5] seconds. *)
Definition backoff (attempt : Z) : Z := (attempt + 1) * 500.

(** What one attempt that is answered with 429 does. *)
Definition rejected_attempt (p : payload) (attempt : Z) : list event :=
  [Sleep 200; Post p; Sleep (backoff attempt)].

(** [results] of a page, as line 61 reads it. *)
Definition page_results (b : body) : list contact := default [] (results b).

Section ApiSpec.

Context {World : Type}.
Variable post : payload → World → response * World.

(** The answers to the requests [reqs] sent one after the other from
    state [w], and the state reached. *)
Fixpoint serve (w : World) (reqs : list payload) : list response * World :=
  match reqs with
  | [] => ([], w)
  | p :: rest =>
      let '(r, w1) := post p w in
      let '(rs, w2) := serve w1 rest in
      (r :: rs, w2)
  end.

(** [paged filters properties limit after w bodies w']: from state [w],
    the pages requested from cursor [after] on are each answered with
    status 200 at the first attempt, they carry [bodies], every page but
    the last gives a cursor to the next, and the API ends in [w']. *)
Inductive paged (filters : list filter_spec) (properties : option (list string))
    (limit : Z) : option string → World → list body → World → Prop :=
  | paged_last after w r w' :
      post (page_payload filters properties limit after) w = (r, w') →
      status_code r = 200 →
      truthy_cursor (next_after (json r)) = false →
      paged filters properties limit after w [json r] w'
  | paged_next after w r w1 bodies w' :
      post (page_payload filters properties limit after) w = (r, w1) →
      status_code r = 200 →
      truthy_cursor (next_after (json r)) = true →
      paged filters properties limit (next_after (json r)) w1 bodies w' →
      paged filters properties limit after w (json r :: bodies) w'.

End ApiSpec.

(** The request bodies that fetching the pages [bodies] from cursor
    [after] sends. *)
Fixpoint page_requests (filters : list filter_spec) (properties : option (list string))
    (limit : Z) (after : option string) (bodies : list body) : list payload :=
  match bodies with
  | [] => []
  | b :: rest =>
      page_payload filters properties limit after
      :: page_requests filters properties limit (next_after b) rest
  end.

(** ** Lead types *)

(** The [lead_type] of [c] is none of the five named values. *)
Definition unnamed_lead_type (c : contact) : Prop :=
  Forall (λ t, get_prop c "lead_type" ≠ PStr t) named_lead_types.

Global Instance unnamed_lead_type_dec c : Decision (unnamed_lead_type c).
Proof. unfold unnamed_lead_type. apply _. Defined.

(** ** Lead-source buckets *)

(** The canonical name [main_source] can take [source]: it is not empty
    and occurs in [source], letter case aside. *)
Definition canonical_match (source main_source : string) : Prop :=
  main_source ≠ "" ∧ Str.ci_substring_of main_source source.

(** [bucket] is the first name of [mains] that can take [source], or
    ["Other"] when none can. *)
Definition assigned_bucket (mains : list string) (source bucket : string) : Prop :=
  (∃ pre post, mains = pre ++ bucket :: post
               ∧ canonical_match source bucket
               ∧ Forall (λ m, ¬ canonical_match source m) pre)
  ∨ (bucket = "Other" ∧ Forall (λ m, ¬ canonical_match source m) mains).

(** One line of the lead-source report. *)
Definition count_line (name : string) (count : nat) : string :=
  name +:+ ": " +:+ pretty count.

(** The lines a bucket contributes when its sub-sources, in report order,
    are [sub_sources] and the API counts [cnt s] contacts for [s]. *)
Definition bucket_block (cnt : string → nat) (main_source : string)
    (sub_sources : list string) : list string :=
  match sub_sources with
  | [] => []
  | _ :: _ =>
      count_line main_source (sum_list (cnt <$> sub_sources))
      :: ((λ s, count_line s (cnt s)) <$> sub_sources) ++ [""]
  end.

(** ** Owner reports *)

(** The paragraph of the sales-direct report for owner [sales_id] when
    the API counts [cnt property sales_id] contacts. *)
Definition direct_paragraph_of (cfg : config) (cnt : string → string → nat)
    (sales_id : string) : string :=
  sales_direct_paragraph (sales_name_of cfg sales_id)
    (cnt zoom_booked sales_id) (cnt zoom_attended sales_id) (cnt deal_negotiation sales_id).

(** The paragraph of the CC report for owner [sales_id] when the API
    counts [cnt property takeover_type sales_id] contacts. *)
Definition cc_paragraph_of (cfg : config) (cnt : string → option string → string → nat)
    (sales_id : string) : string :=
  cc_to_paragraph (sales_name_of cfg sales_id)
    (cnt "takeover_date_time" (Some "TO Call") sales_id)
    (cnt "takeover_date_time" (Some "TO Text") sales_id)
    (cnt zoom_booked None sales_id) (cnt zoom_attended None sales_id)
    (cnt deal_negotiation None sales_id).

(** The distinct elements of [l] in the order of their first occurrence. *)
Definition first_seen (l : list string) : list string :=
  foldl (λ seen x, if decide (x ∈ seen) then seen else seen ++ [x]) [] l.

(** ** What a run may do *)

(** A trace in which every request comes directly after a sleep of
    0.2 s. *)
Inductive paced : list event → Prop :=
  | paced_nil : paced []
  | paced_sleep ms t : paced t → paced (Sleep ms :: t)
  | paced_post p t : paced t → paced (Sleep 200 :: Post p :: t).

(** The traces whose requests satisfy [Qp] and whose sleeps satisfy
    [Qs], every request coming directly after a sleep of 0.2 s. *)
Definition trace_within (Qp : payload → Prop) (Qs : Z → Prop) (t : list event) : Prop :=
  paced t ∧ Forall Qp (posts t) ∧ Forall Qs (sleeps t).

(** A sleep the retry loop can make when it is given [retries]
    attempts: the pause of 0.2 s or the backoff after one of them. *)
Definition retry_sleep (retries ms : Z) : Prop :=
  ms = 200 ∨ ∃ attempt, 0 ≤ attempt < retries ∧ ms = backoff attempt.

(** The time slept in a trace, in milliseconds. *)
Definition total_sleep (t : list event) : Z := foldr Z.add 0 (sleeps t).

(** A request of the script: at most 100 contacts a page, a [BETWEEN]
    filter over the time window first, and [EQ] filters after it. *)
Definition windowed (clock : Z) (p : payload) : Prop :=
  limit_of p = 100 ∧
  ∃ property_name eqs,
    filters_of p = between_filter clock property_name ++ eqs
    ∧ Forall (λ f, operator_of f = EQ) eqs.

(** The run [x] returned [a], having sent [n] requests, each after a
    sleep of 0.2 s, and slept at no other time. *)
Definition returned_after {W A : Type} (n : nat) (x : run W A) (a : A) : Prop :=
  outcome_of x = Return a ∧
  length (posts (trace_of x)) = n ∧
  sleeps (trace_of x) = replicate n 200.

(** The request for the first page of a query, with the default limit. *)
Definition first_page (filters : list filter_spec) (properties : option (list string))
  : payload :=
  page_payload filters properties default_limit None.

(** An API that answers every request at once with a single page, which
    holds the contacts [answer p] whenever the request [p] is made. *)
Definition answers_with {World : Type} (post : payload → World → response * World)
    (answer : payload → list contact) : Prop :=
  ∀ p w, status_code (post p w).1 = 200
         ∧ truthy_cursor (next_after (json (post p w).1)) = false
         ∧ page_results (json (post p w).1) = answer p.

(** The number of contacts such an API holds for the query of
    [get_count_contact_owner] (lines 157-159). *)
Definition answered_direct (answer : payload → list contact) (clock : Z)
    (property_name sales_id : string) : nat :=
  length (answer (first_page (between_filter clock property_name
                              ++ eq_filter "hubspot_owner_id" sales_id) None)).

(** The same for the query of [get_count_secondary_owner] (lines
    161-165). *)
Definition answered_secondary (answer : payload → list contact) (clock : Z)
    (property_name : string) (takeover_type : option string) (sales_id : string) : nat :=
  length (answer (first_page (between_filter clock property_name
                              ++ eq_filter "secondary_owner" sales_id
                              ++ match takeover_type with
                                 | Some t =>
                                     if Str.truthy t then eq_filter "takeover_type" t else []
                                 | None => []
                                 end) None)).

(** The same for the query of [get_count_lead_source] (lines 167-169). *)
Definition answered_source (answer : payload → list contact) (clock : Z)
    (source : string) : nat :=
  length (answer (first_page (between_filter clock "createdate"
                              ++ eq_filter "lead_source" source) None)).

(** The first request of the script (lines 83-87). *)
Definition first_request (clock : Z) : payload :=
  page_payload (between_filter clock "date_entered__new_lead__new_lifecycle_stage_pipeline__")
    (Some ["email"; "lead_type"; "lead_source"]) default_limit None.

(** ** Lead sources and the output record *)

(** [c] lies in no bucket of [lead_sources]: its [lead_source] is not
    blank and contains none of the configured names whose entry is kept. *)
Definition unmatched_lead_source (main_lead_source : list string) (c : contact) : Prop :=
  truthy (get_prop c "lead_source") ∧
  ∀ s, s ∈ main_lead_source → Str.lower s ≠ "no_lead_source" →
       ¬ Str.ci_substring_of s (or_empty (get_prop c "lead_source")).

(** The keys the output record has whatever the configuration. *)
Definition fixed_output_keys : list string :=
  ["new_lead"; "duplicate_lead"; "resubmitted_lead"; "nurture_lead"; "self_gen_lead";
   "other_lead"; "total_lead_allocate";
   "no_lead_source"; "other_source"; "total_lead_create";
   "contact_count"; "take_over_call_count"; "take_over_text_count";
   "zoom_book_count"; "zoom_attend_count"; "deal_negotiation_count";
   "CC TO Report"; "Sales Direct Report"; "Lead Source Report"].

(** * Example environments *)

Module Example.

(** An API that is rate limiting every request. *)
Definition rate_limited (p : payload) (w : unit) : response * unit :=
  (Response 429 "Too Many Requests" (Body None None), w).

(** An API, counting the requests it has seen, that rate limits the first
    one and does not know the endpoint afterwards. *)
Definition flaky (p : payload) (seen : nat) : response * nat :=
  match seen with
  | O => (Response 429 "Too Many Requests" (Body None None), S seen)
  | S _ => (Response 404 "Not Found" (Body None None), S seen)
  end.

Definition ann : contact :=
  Contact "1" (Some {[ "lead_source" := PStr "Facebook Ads"; "hubspot_owner_id" := PStr "b" ]}).
Definition bob : contact :=
  Contact "2" (Some {[ "lead_source" := PStr "Google"; "hubspot_owner_id" := PStr "a" ]}).
Definition cho : contact := Contact "3" None.

(** An API holding three contacts on two pages. *)
Definition two_pages (p : payload) (w : unit) : response * unit :=
  match after_of p with
  | None =>
      (Response 200 "" (Body (Some [ann; bob]) (Some (Paging (Some (PagingNext (Some "2")))))), w)
  | Some _ => (Response 200 "" (Body (Some [cho]) (Some (Paging None))), w)
  end.

(** An API that answers every query on one page, with as many contacts
    as the value of the last filter has characters. *)
Definition by_length (p : payload) (w : unit) : response * unit :=
  let n := match last (filters_of p) with
           | Some (Filter _ _ (FStr v) _) => String.length v
           | _ => O
           end in
  (Response 200 "" (Body (Some (replicate n cho)) None), w).

(** An API that answers every query with the same two contacts. *)
Definition two_each (p : payload) (w : unit) : response * unit :=
  (Response 200 "" (Body (Some [ann; bob]) None), w).

(** Set iteration in the order of [elements]. *)
Definition in_elements_order : SetIteration :=
  {| set_list := elements; set_list_perm := λ X, reflexivity (elements X) |}.

(** Set iteration in the reverse of the order of [elements]. *)
Definition in_reverse_order : SetIteration :=
  {| set_list := λ X, reverse (elements X);
     set_list_perm := λ X, reverse_Permutation (elements X) |}.

Definition team : config :=
  {| cc_team := {["z"]};
     sales_team := {[ "a" := "Alice" ]};
     main_lead_source := ["Facebook"; "Google"] |}.

(** The clock at 2025-11-03 16:00:00 UTC. *)
Definition clock : Z := 1762185600000000.

(** An API, counting the requests it has seen, that rate limits the first
    one and answers the others with one contact on a single page. *)
Definition recovering (p : payload) (seen : nat) : response * nat :=
  match seen with
  | O => (Response 429 "Too Many Requests" (Body None None), S seen)
  | S _ => (Response 200 "" (Body (Some [ann]) None), S seen)
  end.

(** An API that answers every request with one more contact and the
    cursor of a further page. *)
Definition endless (p : payload) (w : unit) : response * unit :=
  (Response 200 "" (Body (Some [cho]) (Some (Paging (Some (PagingNext (Some "next")))))), w).

(** An API that is out of order. *)
Definition broken (p : payload) (w : unit) : response * unit :=
  (Response 500 "Internal Server Error" (Body None None), w).

End Example.

(** * Theorems *)

(** ** Strings *)

Lemma startswith_spec k s : Str.startswith k s ↔ ∃ b, s = k +:+ b.
Proof.
  revert s. induction k as [|a k IH]; intros s; simpl.
  - split; [intros _; by exists s | done].
  - destruct s as [|b s]; simpl.
    + split; [done | intros [? ?]; discriminate].
    + rewrite andb_True, bool_decide_spec, IH. split.
      * intros [-> [t ->]]. by exists t.
      * intros [t Ht]. injection Ht as -> ->. eauto.
Qed.

Lemma contains_spec k s : Str.contains k s ↔ Str.substring_of k s.
Proof.
  unfold Str.substring_of. induction s as [|c s IH].
  - simpl. rewrite orb_True, startswith_spec. split.
    + intros [[b Hb]|[]]. by exists "", b.
    + intros [[|??] [b Hb]]; [left; by exists b | discriminate].
  - cbn [Str.contains]. rewrite orb_True, startswith_spec, IH. split.
    + intros [[b Hb]|(a & b & ->)]; [by exists "", b | by exists (String c a), b].
    + intros [[|c' a] [b Hb]]; [left; by exists b |].
      injection Hb as -> ->. right. eauto.
Qed.

Lemma lower_empty_inv s : Str.lower s = "" → s = "".
Proof. by destruct s. Qed.

Lemma substring_of_empty k : Str.substring_of k "" ↔ k = "".
Proof.
  split.
  - intros ([|??] & b & Hb); [|discriminate]. by destruct k.
  - intros ->. by exists "", "".
Qed.

Lemma truthy_spec s : Str.truthy s ↔ s ≠ "".
Proof. unfold Str.truthy. by rewrite negb_True, bool_decide_spec. Qed.

(** ** Lead sources of contacts *)

Lemma match_lead_source_elem leads keyword c :
  c ∈ match_lead_source leads keyword ↔
  c ∈ leads ∧ Str.ci_substring_of keyword (or_empty (get_prop c "lead_source")).
Proof.
  unfold match_lead_source, Str.ci_substring_of.
  rewrite list_elem_of_filter, contains_spec. tauto.
Qed.

(** C5, as the code has it: for a keyword that is not empty,
    [match_lead_source] keeps, in their order, exactly the contacts whose
    [lead_source] is a string that contains the keyword, letter case
    aside; such a string is never empty, so a contact whose [lead_source]
    is missing, null or empty is not returned. *)
Theorem match_lead_source_spec (leads : list contact) (keyword : string) :
  keyword ≠ "" →
  match_lead_source leads keyword `sublist_of` leads ∧
  ∀ c, c ∈ match_lead_source leads keyword ↔
       c ∈ leads ∧ ∃ s, get_prop c "lead_source" = PStr s ∧ s ≠ ""
                        ∧ Str.ci_substring_of keyword s.
Proof.
  intros Hk. split; [apply sublist_filter|].
  intros c. rewrite match_lead_source_elem. split.
  - intros [Hc Hsub]. split; [done|].
    destruct (get_prop c "lead_source") as [|s] eqn:Hs; simpl in Hsub.
    + apply substring_of_empty in Hsub. by apply lower_empty_inv in Hsub.
    + exists s. split_and!; [done| |done]. intros ->.
      apply substring_of_empty in Hsub. by apply lower_empty_inv in Hsub.
  - intros [Hc (s & -> & _ & Hsub)]. by split.
Qed.

Lemma match_lead_source_spec_witness :
  "face" ≠ "" ∧
  (Example.ann ∈ match_lead_source [Example.ann; Example.bob; Example.cho] "face" ↔
   Example.ann ∈ [Example.ann; Example.bob; Example.cho]
   ∧ ∃ s, get_prop Example.ann "lead_source" = PStr s ∧ s ≠ ""
          ∧ Str.ci_substring_of "face" s).
Proof.
  assert (Hk : "face" ≠ "") by discriminate.
  split; [exact Hk|].
  exact (proj2 (match_lead_source_spec [Example.ann; Example.bob; Example.cho] "face" Hk)
           Example.ann).
Defined.

(** C5 as stated fails for the empty keyword: the empty string occurs in
    every string, so a contact without [lead_source] is returned. *)
Lemma match_lead_source_empty_keyword :
  get_prop Example.cho "lead_source" = PNull ∧
  match_lead_source [Example.cho] "" = [Example.cho].
Proof. split; reflexivity. Qed.

(** ** Lead types *)

Lemma sum_len_empty : sum_len ∅ = 0.
Proof. unfold sum_len. by rewrite map_fold_empty. Qed.

Lemma sum_len_insert d k v :
  d !! k = None → sum_len (<[k:=v]> d) = sum_len d + Z.of_nat (length v).
Proof.
  intros Hk. unfold sum_len. rewrite map_fold_insert_L; [done| |done].
  intros. lia.
Qed.

Lemma sum_len_lead_types la :
  sum_len (lead_types la) =
  Z.of_nat (length (filter_by_type la "New Lead"))
  + Z.of_nat (length (filter_by_type la "Duplicate"))
  + Z.of_nat (length (filter_by_type la "Resubmitted"))
  + Z.of_nat (length (filter_by_type la "Nurture"))
  + Z.of_nat (length (filter_by_type la "Self Gen")).
Proof.
  unfold lead_types.
  rewrite !sum_len_insert, sum_len_empty; [lia|..];
    by rewrite ?lookup_insert_ne, ?lookup_empty by discriminate.
Qed.

(** The five lead-type buckets are pairwise disjoint. *)
Lemma lead_types_disjoint (leads_allocate : list contact) k1 k2 b1 b2 c :
  k1 ≠ k2 →
  lead_types leads_allocate !! k1 = Some b1 →
  lead_types leads_allocate !! k2 = Some b2 →
  c ∈ b1 → c ∉ b2.
Proof.
  intros Hne H1 H2 Hc1 Hc2.
  unfold lead_types in H1, H2. rewrite !lookup_insert, lookup_empty in H1, H2.
  unfold filter_by_type in *.
  repeat case_decide; simplify_eq;
    apply list_elem_of_filter in Hc1 as [E1 _], Hc2 as [E2 _];
    rewrite E1 in E2; discriminate.
Qed.

(** The residual of line 245 counts the contacts of no named type. *)
Lemma other_lead_unnamed (leads_allocate : list contact) :
  other_lead leads_allocate =
    Z.of_nat (length (filter unnamed_lead_type leads_allocate)).
Proof.
  unfold other_lead. rewrite sum_len_lead_types. unfold filter_by_type.
  induction leads_allocate as [|c la IH]; [done|].
  rewrite !filter_cons.
  repeat case_decide; simpl length; try lia; exfalso;
    unfold unnamed_lead_type, named_lead_types in *;
    repeat match goal with
    | H : Forall _ (_ :: _) |- _ => apply Forall_cons in H as [? H]
    end; try congruence.
  match goal with H : ¬ Forall _ _ |- _ => apply H end.
  repeat constructor; congruence.
Qed.

(** ** Floats *)

(** The model of [int / int] gives the known double nearest to 1/10,
    [0x1.999999999999ap-4]. *)
Example true_divide_tenth :
  Float.true_divide 1 10 = Float.Make 7205759403792794 (-56).
Proof. reflexivity. Qed.

Lemma div_rne_bounds a b :
  0 < b → 2 * a - b ≤ 2 * (b * Float.div_rne a b) ≤ 2 * a + b.
Proof.
  intros Hb. unfold Float.div_rne.
  pose proof (Z.div_mod a b ltac:(lia)) as Hdiv.
  pose proof (Z.mod_pos_bound a b Hb) as Hmod.
  set (q := a / b) in *. set (r := a mod b) in *.
  destruct (Z.compare_spec (2 * r) b); [destruct (Z.even q)|..]; nia.
Qed.

Lemma div_rne_exact n b : 0 < b → Float.div_rne (n * b) b = n.
Proof.
  intros Hb. unfold Float.div_rne.
  rewrite Z.div_mul, Z.mod_mul by lia.
  by destruct (Z.compare_spec (2 * 0) b); try lia.
Qed.

Lemma div_rne_ge a b n : 0 < b → n * b ≤ a → n ≤ Float.div_rne a b.
Proof. intros Hb Ha. pose proof (div_rne_bounds a b Hb). nia. Qed.

Lemma div_rne_le a b n : 0 < b → a ≤ n * b → Float.div_rne a b ≤ n.
Proof. intros Hb Ha. pose proof (div_rne_bounds a b Hb). nia. Qed.

Lemma div_rne_lt a b n : 0 < b → 2 * a + b < 2 * (n * b) → Float.div_rne a b < n.
Proof. intros Hb Ha. pose proof (div_rne_bounds a b Hb). nia. Qed.

Lemma pow2_add x y : 0 ≤ x → 0 ≤ y → 2 ^ (x + y) = 2 ^ x * 2 ^ y.
Proof. intros. by apply Z.pow_add_r. Qed.

Lemma pow2_gt0 x : 0 ≤ x → 0 < 2 ^ x.
Proof. intros. by apply Z.pow_pos_nonneg. Qed.

Lemma binade_spec a b :
  0 < a → 0 < b →
  b * 2 ^ Z.max 0 (Float.binade a b) ≤ a * 2 ^ Z.max 0 (- Float.binade a b) ∧
  a * 2 ^ Z.max 0 (- Float.binade a b - 1) < b * 2 ^ Z.max 0 (Float.binade a b + 1).
Proof.
  intros Ha Hb. unfold Float.binade.
  destruct (Z.log2_spec a Ha) as [Ha1 Ha2], (Z.log2_spec b Hb) as [Hb1 Hb2].
  pose proof (Z.log2_nonneg a) as Hla. pose proof (Z.log2_nonneg b) as Hlb.
  set (la := Z.log2 a) in *. set (lb := Z.log2 b) in *.
  rewrite Z.pow_succ_r in Ha2, Hb2 by done.
  destruct (Z.leb_spec (b * 2 ^ Z.max 0 (la - lb)) (a * 2 ^ Z.max 0 (- (la - lb))))
    as [Hle|Hlt].
  - split; [done|].
    destruct (Z_lt_le_dec (la - lb) 0) as [Hneg|Hpos].
    + rewrite (Z.max_r 0 (- (la - lb) - 1)), (Z.max_l 0 (la - lb + 1)) by lia.
      rewrite Z.pow_0_r.
      pose proof (pow2_gt0 (- (la - lb) - 1) ltac:(lia)) as Ht.
      pose proof (pow2_add (Z.succ la) (- (la - lb) - 1) ltac:(lia) ltac:(lia)) as Hpow.
      replace (Z.succ la + (- (la - lb) - 1)) with lb in Hpow by lia.
      rewrite Z.pow_succ_r in Hpow by done. nia.
    + rewrite (Z.max_l 0 (- (la - lb) - 1)), (Z.max_r 0 (la - lb + 1)) by lia.
      rewrite Z.pow_0_r.
      pose proof (pow2_gt0 (la - lb + 1) ltac:(lia)) as Ht.
      pose proof (pow2_add lb (la - lb + 1) ltac:(lia) ltac:(lia)) as Hpow.
      replace (lb + (la - lb + 1)) with (Z.succ la) in Hpow by lia.
      rewrite Z.pow_succ_r in Hpow by done. nia.
  - split.
    + destruct (Z_lt_le_dec (la - lb) 1) as [Hneg|Hpos].
      * rewrite (Z.max_l 0 (la - lb - 1)), (Z.max_r 0 (- (la - lb - 1))) by lia.
        rewrite Z.pow_0_r.
        pose proof (pow2_gt0 (- (la - lb - 1)) ltac:(lia)) as Ht.
        pose proof (pow2_add la (- (la - lb - 1)) ltac:(lia) ltac:(lia)) as Hpow.
        replace (la + - (la - lb - 1)) with (Z.succ lb) in Hpow by lia.
        rewrite Z.pow_succ_r in Hpow by done. nia.
      * rewrite (Z.max_r 0 (la - lb - 1)), (Z.max_l 0 (- (la - lb - 1))) by lia.
        rewrite Z.pow_0_r.
        pose proof (pow2_gt0 (la - lb - 1) ltac:(lia)) as Ht.
        pose proof (pow2_add (Z.succ lb) (la - lb - 1) ltac:(lia) ltac:(lia)) as Hpow.
        replace (Z.succ lb + (la - lb - 1)) with la in Hpow by lia.
        rewrite Z.pow_succ_r in Hpow by done. nia.
    + replace (- (la - lb - 1) - 1) with (- (la - lb)) by lia.
      replace (la - lb - 1 + 1) with (la - lb) by lia. done.
Qed.

Lemma true_divide_small a b :
  a ≠ 0 → Float.binade (Z.abs a) b ≤ 52 →
  Float.true_divide a b =
    Float.Make (Float.div_rne (a * 2 ^ (52 - Float.binade (Z.abs a) b)) b)
               (Float.binade (Z.abs a) b - 52).
Proof.
  intros Ha He. unfold Float.true_divide.
  destruct (Z.eqb_spec a 0) as [|_]; [done|].
  rewrite Z.max_r, Z.max_l by lia. rewrite Z.pow_0_r, Z.mul_1_r.
  by replace (- (Float.binade (Z.abs a) b - 52)) with (52 - Float.binade (Z.abs a) b) by lia.
Qed.

Lemma pow2_le x y : 0 ≤ x ≤ y → 2 ^ x ≤ 2 ^ y.
Proof. intros. apply Z.pow_le_mono_r; lia. Qed.

(** Multiplying whole seconds by 1000 is exact. *)
Lemma to_int_seconds (S : Z) :
  S ≠ 0 → Z.abs S < 2 ^ 42 →
  Float.to_int (Float.mul (Float.true_divide (S * 1000000) 1000000) (Float.of_int 1000))
    = S * 1000.
Proof.
  intros HS Hbound.
  assert (Z.abs (S * 1000000) = Z.abs S * 1000000) as Habs by lia.
  destruct (binade_spec (Z.abs (S * 1000000)) 1000000 ltac:(lia) ltac:(lia)) as [H1 H2].
  set (e := Float.binade (Z.abs (S * 1000000)) 1000000) in *.
  rewrite Habs in H1, H2.
  assert (0 ≤ e) as He0.
  { destruct (Z_lt_le_dec e 0) as [Hneg|]; [|done]. exfalso.
    rewrite (Z.max_r 0 (- e - 1)), (Z.max_l 0 (e + 1)), Z.pow_0_r in H2 by lia.
    pose proof (pow2_gt0 (- e - 1) ltac:(lia)). nia. }
  assert (e ≤ 41) as He1.
  { destruct (Z_lt_le_dec 41 e) as [Hbig|]; [|lia]. exfalso.
    rewrite (Z.max_r 0 e), (Z.max_l 0 (- e)), Z.pow_0_r in H1 by lia.
    pose proof (pow2_le 42 e ltac:(lia)). lia. }
  rewrite (Z.max_l 0 (- e - 1)), (Z.max_r 0 (e + 1)), Z.pow_0_r in H2 by lia.
  rewrite true_divide_small by (fold e; lia). fold e.
  set (P := 2 ^ (52 - e)).
  assert (0 < P) as HP by (apply pow2_gt0; lia).
  assert (Z.abs S * P < 2 ^ 53) as Hm.
  { pose proof (pow2_add (e + 1) (52 - e) ltac:(lia) ltac:(lia)) as Hpow.
    replace (e + 1 + (52 - e)) with 53 in Hpow by lia. fold P in Hpow. nia. }
  replace (S * 1000000 * P) with (S * P * 1000000) by lia.
  rewrite div_rne_exact by lia.
  change (Float.of_int 1000) with (Float.Make 1000 0).
  unfold Float.mul, Float.round. cbn [Float.mantissa Float.exponent].
  destruct (Z.ltb_spec (Z.abs (S * P * 1000)) (2 ^ 53)) as [Hsmall|Hbig].
  - unfold Float.to_int. cbn [Float.mantissa Float.exponent].
    destruct (Z.leb_spec 0 (e - 52 + 0)) as [|_]; [lia|].
    replace (- (e - 52 + 0)) with (52 - e) by lia. fold P.
    replace (S * P * 1000) with (S * 1000 * P) by lia.
    apply Z.quot_mul. lia.
  - set (s := Z.log2 (Z.abs (S * P * 1000)) - 52).
    assert (1 ≤ s ≤ 10) as Hs.
    { unfold s. split.
      - assert (53 ≤ Z.log2 (Z.abs (S * P * 1000))); [|lia].
        apply Z.log2_le_pow2; lia.
      - assert (Z.log2 (Z.abs (S * P * 1000)) < 63); [|lia].
        apply Z.log2_lt_pow2; [lia|].
        change (2 ^ 63) with (1024 * 2 ^ 53). lia. }
    set (Q := 2 ^ (52 - e - s)).
    assert (0 < Q) as HQ by (apply pow2_gt0; lia).
    assert (P = Q * 2 ^ s) as HPQ.
    { unfold P, Q. rewrite <- pow2_add by lia. f_equal. lia. }
    replace (S * P * 1000) with (S * 1000 * Q * 2 ^ s) by (rewrite HPQ; lia).
    rewrite div_rne_exact by (apply pow2_gt0; lia).
    unfold Float.to_int. cbn [Float.mantissa Float.exponent].
    destruct (Z.leb_spec 0 (e - 52 + 0 + s)) as [|_]; [lia|].
    replace (- (e - 52 + 0 + s)) with (52 - e - s) by lia. fold Q.
    apply Z.quot_mul. lia.
Qed.

(** The last microsecond of a second, times 1000, truncates to
    millisecond 999 of that second as long as the next second is at most
    2^34. *)
Lemma to_int_last_microsecond (X : Z) :
  0 ≤ X → X + 1 ≤ 2 ^ 34 →
  Float.to_int (Float.mul (Float.true_divide (X * 1000000 + 999999) 1000000)
                  (Float.of_int 1000))
    = X * 1000 + 999.
Proof.
  intros HX Hbound.
  set (a := X * 1000000 + 999999).
  assert (Z.abs a = a) as Habs by lia.
  destruct (binade_spec (Z.abs a) 1000000 ltac:(lia) ltac:(lia)) as [H1 H2].
  set (e := Float.binade (Z.abs a) 1000000) in *.
  rewrite Habs in H1, H2.
  assert (-1 ≤ e) as He0.
  { destruct (Z_lt_le_dec e (-1)) as [Hneg|]; [|done]. exfalso.
    rewrite (Z.max_r 0 (- e - 1)), (Z.max_l 0 (e + 1)), Z.pow_0_r in H2 by lia.
    pose proof (pow2_le 1 (- e - 1) ltac:(lia)). change (2 ^ 1) with 2 in *. nia. }
  assert (e ≤ 33) as He1.
  { destruct (Z_lt_le_dec 33 e) as [Hbig|]; [|lia]. exfalso.
    rewrite (Z.max_r 0 e), (Z.max_l 0 (- e)), Z.pow_0_r in H1 by lia.
    pose proof (pow2_le 34 e ltac:(lia)). nia. }
  rewrite (Z.max_l 0 (- e - 1)), (Z.max_r 0 (e + 1)), Z.pow_0_r in H2 by lia.
  rewrite true_divide_small by (fold e; lia). fold e.
  set (P := 2 ^ (52 - e)).
  assert (2 ^ 19 ≤ P) as HP by (apply pow2_le; lia).
  change (2 ^ 19) with 524288 in HP.
  assert (a * P < 2 ^ 53 * 1000000) as Hm.
  { pose proof (pow2_add (e + 1) (52 - e) ltac:(lia) ltac:(lia)) as Hpow.
    replace (e + 1 + (52 - e)) with 53 in Hpow by lia. fold P in Hpow. nia. }
  set (m := Float.div_rne (a * P) 1000000).
  assert (m < (X + 1) * P) as Hupper.
  { apply div_rne_lt; [lia|]. unfold a. nia. }
  assert ((X * 1000 + 999) * P ≤ m * 1000) as Hlower.
  { pose proof (div_rne_bounds (a * P) 1000000 ltac:(lia)) as [Hb _]. fold m in Hb.
    unfold a in Hb. nia. }
  assert (m ≤ 2 ^ 53) as Hm53 by (apply div_rne_le; lia).
  change (Float.of_int 1000) with (Float.Make 1000 0).
  unfold Float.mul, Float.round. cbn [Float.mantissa Float.exponent].
  assert (0 ≤ m * 1000) as Hpos by nia.
  rewrite (Z.abs_eq (m * 1000)) by done.
  destruct (Z.ltb_spec (m * 1000) (2 ^ 53)) as [Hsmall|Hbig].
  - unfold Float.to_int. cbn [Float.mantissa Float.exponent].
    destruct (Z.leb_spec 0 (e - 52 + 0)) as [|_]; [lia|].
    replace (- (e - 52 + 0)) with (52 - e) by lia. fold P.
    rewrite Z.quot_div_nonneg by lia.
    symmetry. apply Z.div_unique with (r := m * 1000 - (X * 1000 + 999) * P); nia.
  - set (s := Z.log2 (m * 1000) - 52).
    assert (1 ≤ s ≤ 10) as Hs.
    { unfold s. split.
      - assert (53 ≤ Z.log2 (m * 1000)); [|lia]. apply Z.log2_le_pow2; lia.
      - assert (Z.log2 (m * 1000) < 63); [|lia].
        apply Z.log2_lt_pow2; [lia|]. change (2 ^ 63) with (1024 * 2 ^ 53). lia. }
    assert (0 < 2 ^ s ≤ 1024) as H2s.
    { split; [apply pow2_gt0; lia|]. change 1024 with (2 ^ 10). apply pow2_le. lia. }
    set (Q := 2 ^ (52 - e - s)).
    assert (0 < Q) as HQ by (apply pow2_gt0; lia).
    assert (P = Q * 2 ^ s) as HPQ.
    { unfold P, Q. rewrite <- pow2_add by lia. f_equal. lia. }
    set (m' := Float.div_rne (m * 1000) (2 ^ s)).
    assert ((X * 1000 + 999) * Q ≤ m') as Hlower'.
    { apply div_rne_ge; [lia|]. nia. }
    assert (m' < (X * 1000 + 1000) * Q) as Hupper'.
    { apply div_rne_lt; [lia|]. nia. }
    unfold Float.to_int. cbn [Float.mantissa Float.exponent].
    destruct (Z.leb_spec 0 (e - 52 + 0 + s)) as [|_]; [lia|].
    replace (- (e - 52 + 0 + s)) with (52 - e - s) by lia. fold Q.
    rewrite Z.quot_div_nonneg by nia.
    symmetry. apply Z.div_unique with (r := m' - (X * 1000 + 999) * Q); nia.
Qed.

(** ** The time window *)

Lemma datetime_now_day clock d : local_day_of clock d → day (datetime_now clock) = d.
Proof.
  unfold local_day_of, datetime_now, utcoffset. cbn [day]. intros Hd.
  symmetry. apply Z.div_unique with (r := clock + 7 * 3600 * 1000000 - d * 86400000000); lia.
Qed.

(** X6, and where the window of C4 is right: when the current calendar
    day at UTC+7 lies between 1970-01-01 (day 0) and 2514-05-29 (day
    198840), [start_timestamp] is 17:00:00.000 of the previous day and
    [end_timestamp] is 16:59:59.999 of the current day, both read at
    UTC+7 and in epoch milliseconds. *)
Theorem window_timestamps (clock d : Z) :
  local_day_of clock d →
  0 ≤ d ≤ 198840 →
  start_timestamp clock = wall_clock_ms (d - 1) 17 0 0 0 ∧
  end_timestamp clock = wall_clock_ms d 16 59 59 999.
Proof.
  intros Hd Hrange.
  unfold start_timestamp, end_timestamp, timestamp.
  unfold start_time, end_time, epoch_microseconds, replace, minus_days.
  cbn [day hour minute second microsecond].
  rewrite (datetime_now_day clock d Hd). unfold wall_clock_ms, utcoffset. split.
  - replace (((d - 1) * 86400 + 17 * 3600 + 0 * 60 + 0 - 7 * 3600) * 1000000 + 0)
      with (((d - 1) * 86400 + 36000) * 1000000) by lia.
    rewrite to_int_seconds; [lia|lia|].
    change (2 ^ 42) with 4398046511104. lia.
  - replace ((d * 86400 + 16 * 3600 + 59 * 60 + 59 - 7 * 3600) * 1000000 + 999999)
      with ((d * 86400 + 35999) * 1000000 + 999999) by lia.
    rewrite to_int_last_microsecond; [lia|lia|].
    change (2 ^ 34) with 17179869184. lia.
Qed.

Lemma window_timestamps_witness :
  local_day_of Example.clock 20395 ∧ 0 ≤ 20395 ≤ 198840 ∧
  start_timestamp Example.clock = 1762077600000 ∧
  end_timestamp Example.clock = 1762163999999.
Proof.
  assert (Hd : local_day_of Example.clock 20395)
    by (unfold local_day_of, Example.clock; lia).
  assert (Hrange : 0 ≤ 20395 ≤ 198840) by lia.
  split; [exact Hd|]. split; [exact Hrange|].
  exact (window_timestamps Example.clock 20395 Hd Hrange).
Defined.

(** C4 says that the window ends at 16:59:59.999 of the current day for
    every clock reading; the code misses it outside the days above.  On
    1969-12-31 (day -1) the end of the window is negative and [int]
    truncates it toward zero; on 2514-05-30 (day 198841) its seconds
    exceed 2^34 and the [float] nearest to them is the next whole second.
    Either way [end_timestamp] is 17:00:00.000, one millisecond late. *)
Lemma window_end_one_millisecond_late :
  (local_day_of (-86400000000) (-1) ∧
   end_timestamp (-86400000000) = wall_clock_ms (-1) 17 0 0 0 ∧
   end_timestamp (-86400000000) ≠ wall_clock_ms (-1) 16 59 59 999) ∧
  (local_day_of (198841 * 86400000000) 198841 ∧
   end_timestamp (198841 * 86400000000) = wall_clock_ms 198841 17 0 0 0 ∧
   end_timestamp (198841 * 86400000000) ≠ wall_clock_ms 198841 16 59 59 999).
Proof.
  unfold local_day_of.
  split; (split; [lia|]); (split; [by vm_compute|by vm_compute]).
Qed.

(** ** The output record *)

Lemma lead_sources_dom main lc :
  dom (lead_sources main lc) = {["no_lead_source"]} ∪ list_to_set (Str.lower <$> main).
Proof.
  unfold lead_sources. rewrite dom_insert_L. f_equal.
  assert (∀ d : gmap string (list contact),
    dom (foldl (λ d source, <[Str.lower source := match_lead_source lc source]> d) d main)
    = dom d ∪ list_to_set (Str.lower <$> main)) as ->.
  { induction main as [|s main IH]; intros d; simpl.
    - set_solver.
    - rewrite IH, dom_insert_L. set_solver. }
  set_solver.
Qed.

Lemma lead_sources_lookup_None main lc k :
  k ≠ "no_lead_source" → (∀ s, s ∈ main → Str.lower s ≠ k) →
  lead_sources main lc !! k = None.
Proof.
  intros Hk Hm. apply not_elem_of_dom. rewrite lead_sources_dom.
  rewrite elem_of_union, elem_of_singleton, elem_of_list_to_set, list_elem_of_fmap.
  intros [?|(s & -> & ?)]; [done|]. by eapply Hm.
Qed.

Lemma match_lead_source_lower lc s1 s2 :
  Str.lower s1 = Str.lower s2 → match_lead_source lc s1 = match_lead_source lc s2.
Proof. unfold match_lead_source. by intros ->. Qed.

Lemma lead_sources_fold_lookup lc main s :
  s ∈ main →
  foldl (λ d source, <[Str.lower source := match_lead_source lc source]> d)
        (∅ : gmap string (list contact)) main
    !! Str.lower s = Some (match_lead_source lc s).
Proof.
  induction main as [|x main IH] using rev_ind; [by intros ?%elem_of_nil|].
  intros Hs. rewrite foldl_app. cbn [foldl].
  destruct (decide (Str.lower x = Str.lower s)) as [E|E].
  - rewrite E, lookup_insert_eq. f_equal. by apply match_lead_source_lower.
  - rewrite lookup_insert_ne by done. apply IH.
    apply elem_of_app in Hs as [?|Hs]; [done|].
    apply list_elem_of_singleton in Hs. by subst.
Qed.

Lemma lead_sources_lookup main lc s :
  s ∈ main → Str.lower s ≠ "no_lead_source" →
  lead_sources main lc !! Str.lower s = Some (match_lead_source lc s).
Proof.
  intros Hs Hne. unfold lead_sources. rewrite lookup_insert_ne by done.
  by apply lead_sources_fold_lookup.
Qed.

Lemma lead_sources_lookup_blank main lc :
  lead_sources main lc !! "no_lead_source" = Some (match_blank_lead_source lc).
Proof. apply lookup_insert_eq. Qed.

Lemma lifecycle_lens_lookup_None ls k :
  k ∉ (lifecycle_items ls).*1 →
  lens (list_to_map (lifecycle_items ls)) !! k = None.
Proof.
  intros Hk. unfold lens. rewrite lookup_fmap.
  by rewrite (not_elem_of_list_to_map_1 _ _ Hk).
Qed.




(** C10, as the code has it: the five lead-type buckets of [lead_types]
    are pairwise disjoint, so the residual of line 245 is never negative
    and is the number of allocated contacts whose [lead_type] is none of
    the five values.  The entry [other_lead] of the output record is that
    number when no configured lead-source name lower-cases to
    ["other_lead"]; a name that does puts the size of its own bucket
    there instead.  Either way the entry is not negative. *)
Theorem lead_type_buckets_disjoint cfg la lc ls r1 r2 r3 :
  (∀ k1 k2 b1 b2 c,
     k1 ≠ k2 →
     lead_types la !! k1 = Some b1 →
     lead_types la !! k2 = Some b2 →
     c ∈ b1 → c ∉ b2) ∧
  (0 ≤ other_lead la
   ∧ other_lead la = Z.of_nat (length (filter unnamed_lead_type la))) ∧
  ((∀ s, s ∈ main_lead_source cfg → Str.lower s ≠ "other_lead") →
   output cfg la lc ls r1 r2 r3 !! "other_lead"
     = Some (OInt (Z.of_nat (length (filter unnamed_lead_type la))))) ∧
  (∀ s, s ∈ main_lead_source cfg → Str.lower s = "other_lead" →
        output cfg la lc ls r1 r2 r3 !! "other_lead"
          = Some (OInt (Z.of_nat (length (match_lead_source lc s))))) ∧
  (∃ z, output cfg la lc ls r1 r2 r3 !! "other_lead" = Some (OInt z) ∧ 0 ≤ z).
Proof.
  assert (output cfg la lc ls r1 r2 r3 !! "other_lead" =
          match lead_sources (main_lead_source cfg) lc !! "other_lead" with
          | Some b => Some (OInt (Z.of_nat (length b)))
          | None => Some (OInt (Z.of_nat (length (filter unnamed_lead_type la))))
          end) as Hentry.
  { unfold output. rewrite !lookup_insert_ne by discriminate.
    rewrite !lookup_union_r by (apply lifecycle_lens_lookup_None; simpl; set_solver).
    rewrite !lookup_insert_ne by discriminate.
    destruct (lead_sources (main_lead_source cfg) lc !! "other_lead") as [b|] eqn:Hb.
    - apply lookup_union_Some_l. unfold lens. by rewrite lookup_fmap, Hb.
    - rewrite lookup_union_r by (unfold lens; by rewrite lookup_fmap, Hb).
      rewrite lookup_insert_ne by discriminate. rewrite lookup_insert_eq.
      by rewrite other_lead_unnamed. }
  split_and!.
  - intros k1 k2 b1 b2 c. apply lead_types_disjoint.
  - rewrite other_lead_unnamed. lia.
  - apply other_lead_unnamed.
  - intros Hm. rewrite Hentry, lead_sources_lookup_None; done.
  - intros s Hs Hlower. rewrite Hentry, <- Hlower.
    rewrite lead_sources_lookup; [done|done|]. by rewrite Hlower.
  - rewrite Hentry. destruct (lead_sources _ _ !! _); eexists; (split; [done|lia]).
Qed.

Lemma lead_type_buckets_disjoint_witness :
  (∀ s, s ∈ main_lead_source Example.team → Str.lower s ≠ "other_lead") ∧
  output Example.team [Example.ann; Example.cho] [] (Lifecycle [] [] [] [] [] []) [] [] []
    !! "other_lead" = Some (OInt 2).
Proof.
  assert (Hm : ∀ s, s ∈ main_lead_source Example.team → Str.lower s ≠ "other_lead").
  { intros s Hs. simpl in Hs.
    repeat (apply elem_of_cons in Hs as [->|Hs]; [discriminate|]).
    by apply elem_of_nil in Hs. }
  split; [exact Hm|].
  exact (proj1 (proj2 (proj2 (lead_type_buckets_disjoint Example.team
                                [Example.ann; Example.cho] []
                                (Lifecycle [] [] [] [] [] []) [] [] []))) Hm).
Defined.

(** C10 as stated fails for the entry of the output record when a
    configured lead source is named ["other_lead"]: with one allocated
    contact, of a named type, and three created contacts of that source,
    the entry is 3, more than the allocated contacts, while no allocated
    contact is without a named type. *)
Lemma other_lead_entry_not_residual :
  let cfg := Config ∅ ∅ ["other_lead"] in
  let a := Contact "1" (Some {[ "lead_type" := PStr "New Lead" ]}) in
  let c := Contact "2" (Some {[ "lead_source" := PStr "other_lead" ]}) in
  let out := output cfg [a] [c; c; c] (Lifecycle [] [] [] [] [] []) [] [] [] in
  out !! "other_lead" = Some (OInt 3) ∧
  out !! "total_lead_allocate" = Some (OInt 1) ∧
  length (filter unnamed_lead_type [a]) = 0%nat.
Proof. split_and!; by vm_compute. Qed.

(** ** Lead-source grouping *)

Global Instance canonical_match_dec source m : Decision (canonical_match source m).
Proof.
  unfold canonical_match.
  refine (cast_if_and (decide (m ≠ ""))
            (decide (Str.contains (Str.lower m) (Str.lower source))));
    abstract (rewrite ?contains_spec in *; unfold Str.ci_substring_of; tauto).
Defined.

Lemma assigned_bucket_fun mains source b1 b2 :
  assigned_bucket mains source b1 → assigned_bucket mains source b2 → b1 = b2.
Proof.
  intros [(pre1 & post1 & E1 & M1 & F1)|[-> F1]] [(pre2 & post2 & E2 & M2 & F2)|[-> F2]].
  - subst mains. revert pre2 E2 F2. induction pre1 as [|x pre1 IH]; intros [|y pre2] E2 F2;
      simplify_eq/=; try done.
    + by apply Forall_cons in F2 as [? _].
    + by apply Forall_cons in F1 as [? _].
    + apply Forall_cons in F1 as [_ F1], F2 as [_ F2]. eauto.
  - subst mains. apply Forall_app in F2 as [_ F2]. by apply Forall_cons in F2 as [? _].
  - subst mains. apply Forall_app in F1 as [_ F1]. by apply Forall_cons in F1 as [? _].
  - done.
Qed.

Lemma assigned_bucket_total mains source : ∃ b, assigned_bucket mains source b.
Proof.
  induction mains as [|m mains [b IH]].
  - exists "Other". right. by split.
  - destruct (decide (canonical_match source m)) as [Hm|Hm].
    + exists m. left. by exists [], mains.
    + exists b. destruct IH as [(pre & post & -> & ? & ?)|[-> ?]].
      * left. exists (m :: pre), post. split_and!; [done|done|by constructor].
      * right. split; [done|by constructor].
Qed.

Lemma assigned_bucket_key mains source b :
  assigned_bucket mains source b → b = "Other" ∨ b ∈ mains.
Proof.
  intros [(pre & post & -> & _)|[-> _]]; [right|by left].
  apply elem_of_app. right. left.
Qed.

Lemma for_main_source_spec source mains grouped :
  source ≠ "" →
  ∀ b, assigned_bucket mains source b →
  for_main_source source mains grouped =
    if decide (Forall (λ m, ¬ canonical_match source m) mains) then (grouped, false)
    else (append_to b source grouped, true).
Proof.
  intros Hs. induction mains as [|m mains IH]; intros b Hb; cbn [for_main_source].
  - by rewrite decide_True by constructor.
  - assert (Str.truthy source = true) as ->
        by (apply Is_true_true, truthy_spec; done).
    rewrite andb_true_l.
    destruct (decide (canonical_match source m)) as [Hm|Hm].
    + assert (b = m) as ->.
      { eapply assigned_bucket_fun; [done|]. left. by exists [], mains. }
      pose proof Hm as [Hm1 Hm2].
      apply truthy_spec, Is_true_true in Hm1 as ->.
      apply contains_spec, Is_true_true in Hm2 as ->. cbn [andb].
      rewrite decide_False; [done|]. intros [Hn _]%Forall_cons. by apply Hn.
    + assert (Str.truthy m && Str.contains (Str.lower m) (Str.lower source) = false) as ->.
      { apply not_true_is_false. intros [H1 H2]%andb_prop. apply Hm. split.
        - by apply truthy_spec, Is_true_true.
        - by apply contains_spec, Is_true_true. }
      assert (assigned_bucket mains source b) as Hb'.
      { destruct Hb as [(pre & post & E & ? & F)|[-> F]].
        - destruct pre as [|x pre]; simplify_eq/=; try done.
          apply Forall_cons in F as [_ F]. left. eauto.
        - right. split; [done|]. by apply Forall_cons in F as [_ F]. }
      rewrite (IH b Hb').
      destruct (decide (Forall _ mains)) as [F1|F1],
               (decide (Forall _ (m :: mains))) as [F2|F2]; try done.
      * exfalso. apply F2. by constructor.
      * exfalso. apply F1. by apply Forall_cons in F2 as [_ ?].
Qed.

Lemma group_source_lookup main g s b k :
  s ≠ "" → assigned_bucket main s b →
  group_source main g s !! k =
    if decide (b = k) then (λ l, l ++ [s]) <$> g !! b else g !! k.
Proof.
  intros Hs Hb. unfold group_source. rewrite (for_main_source_spec _ _ _ Hs b Hb).
  apply truthy_spec, Is_true_true in Hs as Ht.
  case_decide as HF.
  - assert (b = "Other") as ->.
    { eapply assigned_bucket_fun; [done|]. by right. }
    rewrite Ht. cbn [negb andb]. unfold append_to. apply lookup_alter.
  - cbn [negb andb]. unfold append_to. apply lookup_alter.
Qed.

Lemma group_source_empty main g : group_source main g "" = g.
Proof.
  unfold group_source.
  assert (for_main_source "" main g = (g, false)) as ->; [|done].
  induction main as [|m main IH]; [done|]. simpl. exact IH.
Qed.

Lemma grouped_sources_init_lookup main k :
  grouped_sources_init main !! k =
    if decide (k = "Other" ∨ k ∈ main) then Some [] else None.
Proof.
  unfold grouped_sources_init.
  assert (∀ d : gmap string (list string),
    foldl (λ d source, <[source := []]> d) d main !! k =
      if decide (k ∈ main) then Some [] else d !! k) as Hfold.
  { induction main as [|m main IH]; intros d; cbn [foldl].
    - rewrite decide_False; [done|]. by intros ?%elem_of_nil.
    - rewrite IH.
      destruct (decide (k ∈ main)) as [Hin|Hnin],
               (decide (k ∈ m :: main)) as [Hin'|Hnin']; try done.
      + exfalso. apply Hnin'. by right.
      + apply elem_of_cons in Hin' as [->|?]; [|done]. apply lookup_insert_eq.
      + apply lookup_insert_ne. intros ->. apply Hnin'. left. }
  destruct (decide (k = "Other")) as [->|Hne].
  - rewrite lookup_insert_eq. rewrite decide_True; [done|by left].
  - rewrite lookup_insert_ne, Hfold, lookup_empty by done.
    repeat case_decide; try done; exfalso; naive_solver.
Qed.

Lemma group_sources_snoc main srcs s :
  group_sources main (srcs ++ [s]) = group_source main (group_sources main srcs) s.
Proof. unfold group_sources. by rewrite foldl_app. Qed.

Lemma group_source_keys main g s k :
  is_Some (group_source main g s !! k) ↔ is_Some (g !! k).
Proof.
  destruct (decide (s = "")) as [->|Hs]; [by rewrite group_source_empty|].
  destruct (assigned_bucket_total main s) as [b Hb].
  rewrite (group_source_lookup _ _ _ b k Hs Hb).
  case_decide as Hbk; [subst k; by rewrite fmap_is_Some|done].
Qed.

(** The keys of [grouped_sources] are the configured names and
    ["Other"] throughout, so [grouped_sources[key]] never fails. *)
Lemma group_sources_keys main srcs k :
  is_Some (group_sources main srcs !! k) ↔ k = "Other" ∨ k ∈ main.
Proof.
  induction srcs as [|s srcs IH] using rev_ind.
  - unfold group_sources. simpl. rewrite grouped_sources_init_lookup.
    case_decide; [by split|]. split; [by intros [??]|done].
  - by rewrite group_sources_snoc, group_source_keys.
Qed.

Lemma group_sources_inv main srcs :
  Forall (λ s, s ≠ "") srcs →
  ∀ k, (is_Some (group_sources main srcs !! k) ↔ k = "Other" ∨ k ∈ main) ∧
       ∀ l, group_sources main srcs !! k = Some l →
            l `sublist_of` srcs ∧
            ∀ s, s ∈ l ↔ s ∈ srcs ∧ assigned_bucket main s k.
Proof.
  induction srcs as [|s srcs IH] using rev_ind; intros Hne k.
  - unfold group_sources. simpl. rewrite grouped_sources_init_lookup. split.
    + case_decide; [by split|]. split; [by intros [??]|done].
    + intros l. case_decide; [|done]. intros [= <-]. split; [done|].
      intros s. split; [by intros ?%elem_of_nil|by intros [?%elem_of_nil _]].
  - apply Forall_app in Hne as [Hne Hs]. apply Forall_cons in Hs as [Hs _].
    specialize (IH Hne).
    destruct (assigned_bucket_total main s) as [b Hb].
    rewrite group_sources_snoc, (group_source_lookup _ _ _ b k Hs Hb).
    destruct (decide (b = k)) as [->|Hbk].
    + destruct (IH k) as [Hdom Hl]. split.
      * rewrite <- Hdom. rewrite fmap_is_Some. done.
      * intros l' [l [Hlk ->]]%fmap_Some. destruct (Hl l Hlk) as [Hsub Hmem].
        split; [by apply sublist_app|].
        intros s'. rewrite !elem_of_app, Hmem, !list_elem_of_singleton. split.
        -- intros [[??]|Hx]; [split; [by left|done]|]. subst s'. split; [by right|done].
        -- intros [[Hx|Hx] ?]; [left; done|by right].
    + destruct (IH k) as [Hdom Hl]. split; [done|].
      intros l Hlk. destruct (Hl l Hlk) as [Hsub Hmem].
      split; [by apply sublist_inserts_r|].
      intros s'. rewrite elem_of_app, Hmem, list_elem_of_singleton. split.
      * intros [??]. split; [by left|done].
      * intros [[Hx|Hx] Hk]; [done|]. subst s'.
        exfalso. apply Hbk. eapply assigned_bucket_fun; done.
Qed.

(** C6, as the code has it: every observed value, these being distinct
    and not empty, is put into exactly one bucket, namely the first
    canonical name in configured order that is not empty and occurs in
    the value, letter case aside, or ["Other"] when there is none; no
    bucket holds a value twice. *)
Theorem grouping_assigns_one_bucket (main sources : list string) :
  NoDup sources →
  Forall (λ s, s ≠ "") sources →
  (∀ k l, group_sources main sources !! k = Some l → NoDup l) ∧
  ∀ s, s ∈ sources →
    ∃ b, assigned_bucket main s b ∧
         (∃ l, group_sources main sources !! b = Some l ∧ s ∈ l) ∧
         (∀ k l, group_sources main sources !! k = Some l → s ∈ l → k = b).
Proof.
  intros Hnodup Hne. pose proof (group_sources_inv main sources Hne) as Hinv. split.
  - intros k l Hl. destruct (Hinv k) as [_ Hk]. destruct (Hk l Hl) as [Hsub _].
    by eapply sublist_NoDup.
  - intros s Hs. destruct (assigned_bucket_total main s) as [b Hb]. exists b.
    split_and!; [done| |].
    + destruct (Hinv b) as [Hdom Hl].
      destruct (proj2 Hdom (assigned_bucket_key _ _ _ Hb)) as [l Hlb].
      exists l. split; [done|]. by apply (Hl l Hlb).
    + intros k l Hlk Hsl. destruct (Hinv k) as [_ Hl].
      apply (Hl l Hlk) in Hsl as [_ Hk]. by eapply assigned_bucket_fun.
Qed.

Lemma grouping_assigns_one_bucket_witness :
  NoDup ["facebook ads"; "Google Search"; "TikTok"] ∧
  Forall (λ s, s ≠ "") ["facebook ads"; "Google Search"; "TikTok"] ∧
  ∃ b, assigned_bucket ["Facebook"; "Google"] "TikTok" b ∧
       (∃ l, group_sources ["Facebook"; "Google"]
               ["facebook ads"; "Google Search"; "TikTok"] !! b = Some l ∧ "TikTok" ∈ l) ∧
       (∀ k l, group_sources ["Facebook"; "Google"]
                 ["facebook ads"; "Google Search"; "TikTok"] !! k = Some l →
               "TikTok" ∈ l → k = b).
Proof.
  assert (Hnodup : NoDup ["facebook ads"; "Google Search"; "TikTok"])
    by (apply (bool_decide_unpack _); by vm_compute).
  assert (Hne : Forall (λ s, s ≠ "") ["facebook ads"; "Google Search"; "TikTok"])
    by (apply (bool_decide_unpack _); by vm_compute).
  split; [exact Hnodup|]. split; [exact Hne|].
  apply (proj2 (grouping_assigns_one_bucket ["Facebook"; "Google"]
                  ["facebook ads"; "Google Search"; "TikTok"] Hnodup Hne) "TikTok").
  apply (bool_decide_unpack _). by vm_compute.
Defined.

(** C6 as stated fails when a configured name is empty: the empty name
    comes first and occurs in every value, yet the loop skips it and the
    value goes to the next name that occurs in it. *)
Lemma grouping_skips_empty_name :
  let g := group_sources [""; "Facebook"] ["facebook ads"] in
  Str.ci_substring_of "" "facebook ads" ∧
  g !! "" = Some [] ∧
  g !! "Facebook" = Some ["facebook ads"].
Proof. split_and!; [by exists "", "facebook ads"|by vm_compute..]. Qed.

(** ** The paginated fetch *)

Section ApiFacts.

Context {World : Type}.
Variable post : payload → World → response * World.

Lemma bind_run {A B} (m : M World A) (k : A → M World B) w a w1 t1 :
  m w = Run (Return a) w1 t1 →
  (m ≫= k) w = Run (outcome_of (k a w1)) (world_of (k a w1)) (t1 ++ trace_of (k a w1)).
Proof.
  intros Hm. unfold mbind, M_bind, bind. rewrite Hm. by destruct (k a w1).
Qed.

Lemma bind_raise {A B} (m : M World A) (k : A → M World B) w e w1 t1 :
  m w = Run (Raise e) w1 t1 → (m ≫= k) w = Run (Raise e) w1 t1.
Proof. intros Hm. unfold mbind, M_bind, bind. by rewrite Hm. Qed.

Lemma for_attempt_cons p attempt rest w :
  for_attempt post p (attempt :: rest) w =
    let '(r, w1) := post p w in
    if (status_code r =? 200) then Run (Return r) w1 [Sleep 200; Post p]
    else if (status_code r =? 429) then
      let x := for_attempt post p rest w1 in
      Run (outcome_of x) (world_of x) (rejected_attempt p attempt ++ trace_of x)
    else Run (Raise (Exception ("HubSpot API error: " +:+ pretty (status_code r)
                                  +:+ " - " +:+ text r))) w1 [Sleep 200; Post p].
Proof.
  cbn [for_attempt]. unfold mbind, M_bind, bind, sleep, requests_post, mret, M_ret, ret, raise.
  destruct (post p w) as [r w1]. 
  destruct (status_code r =? 200); [done|].
  destruct (status_code r =? 429); [|done].
  by destruct (for_attempt post p rest w1).
Qed.

Lemma for_attempt_ok p attempt rest w r w1 :
  post p w = (r, w1) → status_code r = 200 →
  for_attempt post p (attempt :: rest) w = Run (Return r) w1 [Sleep 200; Post p].
Proof. intros Hp Hs. rewrite for_attempt_cons, Hp, Hs. done. Qed.

Lemma for_attempt_rejected p attempts rest w :
  Forall (λ r, status_code r = 429) (serve post w (replicate (length attempts) p)).1 →
  for_attempt post p (attempts ++ rest) w =
    let x := for_attempt post p rest (serve post w (replicate (length attempts) p)).2 in
    Run (outcome_of x) (world_of x) ((attempts ≫= rejected_attempt p) ++ trace_of x).
Proof.
  revert w. induction attempts as [|a attempts IH]; intros w H429.
  - simpl. by destruct (for_attempt _ _ _ _).
  - cbn [app length replicate serve] in *. rewrite for_attempt_cons.
    destruct (post p w) as [r w1].
    destruct (serve post w1 (replicate (length attempts) p)) as [rs w2] eqn:Hserve.
    apply Forall_cons in H429 as [Hr H429]. rewrite Hr. simpl (_ =? _).
    rewrite IH by (by rewrite Hserve). rewrite Hserve. simpl. reflexivity.
Qed.

Lemma posts_rejected p attempts :
  posts (attempts ≫= rejected_attempt p) = replicate (length attempts) p.
Proof.
  induction attempts as [|a attempts IH]; [done|].
  change ((a :: attempts) ≫= rejected_attempt p)
    with (rejected_attempt p a ++ (attempts ≫= rejected_attempt p)).
  unfold posts in *. rewrite omap_app, IH. done.
Qed.

Lemma sleeps_rejected p attempts :
  sleeps (attempts ≫= rejected_attempt p) = attempts ≫= (λ attempt, [200; backoff attempt]).
Proof.
  induction attempts as [|a attempts IH]; [done|].
  change ((a :: attempts) ≫= rejected_attempt p)
    with (rejected_attempt p a ++ (attempts ≫= rejected_attempt p)).
  unfold sleeps in *. rewrite omap_app, IH. done.
Qed.

Lemma length_range n : length (range n) = Z.to_nat n.
Proof. unfold range. by rewrite length_fmap, length_seq. Qed.

Lemma range_split (n : Z) (k : nat) :
  (k < Z.to_nat n)%nat →
  range n = range (Z.of_nat k) ++ Z.of_nat k :: (Z.of_nat <$> seq (S k) (Z.to_nat n - S k)).
Proof.
  intros Hk. unfold range. rewrite Nat2Z.id.
  replace (Z.to_nat n) with (k + S (Z.to_nat n - S k))%nat at 1 by lia.
  rewrite seq_app, fmap_app. simpl. done.
Qed.

Lemma backoff_increasing (n : Z) : StronglySorted Z.lt (backoff <$> range n).
Proof.
  unfold range. generalize (Z.to_nat n) as m. generalize 0%nat as start.
  intros start m. revert start. induction m as [|m IH]; intros start; simpl.
  - constructor.
  - constructor; [apply IH|].
    rewrite <- list_fmap_compose. apply Forall_fmap, Forall_seq.
    intros j Hj. simpl. unfold backoff. lia.
Qed.

Lemma while_pages_unfold fuel filters properties limit retries all_results after w r w1 t :
  for_attempt post (page_payload filters properties limit after) (range retries) w
    = Run (Return r) w1 t →
  while_pages post (S fuel) filters properties limit retries all_results after w =
    if negb (truthy_cursor (next_after (json r)))
    then Run (Return (all_results ++ default [] (results (json r)))) w1 t
    else
      let x := while_pages post fuel filters properties limit retries
                 (all_results ++ default [] (results (json r))) (next_after (json r)) w1 in
      Run (outcome_of x) (world_of x) (t ++ trace_of x).
Proof.
  intros Hr. cbn [while_pages]. erewrite bind_run by exact Hr.
  destruct (negb _).
  - unfold mret, M_ret, ret. simpl. by rewrite app_nil_r.
  - done.
Qed.

Lemma while_pages_raise fuel filters properties limit retries all_results after w e w1 t :
  for_attempt post (page_payload filters properties limit after) (range retries) w
    = Run (Raise e) w1 t →
  while_pages post (S fuel) filters properties limit retries all_results after w
    = Run (Raise e) w1 t.
Proof. intros Hr. cbn [while_pages]. by erewrite bind_raise. Qed.

(** C1: when every one of the [retries] attempts for a page is answered
    with status 429, the page loop makes exactly [retries] requests, each
    preceded by a sleep of 0.2 s and followed by a sleep of
    [(attempt + 1) * 0.5] s, these sleeps growing strictly, and then
    raises the retry-limit exception without a further request. *)
Theorem retry_exhausted fuel filters properties limit retries all_results after w :
  0 ≤ retries →
  Forall (λ r, status_code r = 429)
    (serve post w (replicate (Z.to_nat retries)
                     (page_payload filters properties limit after))).1 →
  let p := page_payload filters properties limit after in
  let served := serve post w (replicate (Z.to_nat retries) p) in
  let x := while_pages post (S fuel) filters properties limit retries all_results after w in
  outcome_of x = Raise (Exception "Exceeded retry limit for HubSpot API.") ∧
  world_of x = served.2 ∧
  trace_of x = range retries ≫= rejected_attempt p ∧
  Z.of_nat (length (posts (trace_of x))) = retries ∧
  sleeps (trace_of x) = range retries ≫= (λ attempt, [200; backoff attempt]) ∧
  StronglySorted Z.lt (backoff <$> range retries).
Proof.
  intros Hretries H429 p served x.
  assert (x = Run (Raise (Exception "Exceeded retry limit for HubSpot API."))
                  served.2 (range retries ≫= rejected_attempt p)) as ->.
  { unfold x. apply while_pages_raise. fold p.
    rewrite <- (app_nil_r (range retries)) at 1.
    rewrite for_attempt_rejected by (by rewrite length_range).
    rewrite length_range. fold served. simpl. by rewrite app_nil_r. }
  cbn [outcome_of world_of trace_of]. split_and!; try done.
  - rewrite posts_rejected, length_replicate, length_range. lia.
  - apply sleeps_rejected.
  - apply backoff_increasing.
Qed.

(** C2: when an attempt for a page, after [k] attempts answered with
    429, is answered with a status other than 200 and 429, the page loop
    raises at once the API-error exception that carries the status code
    and the response text, and sends no further request: the trace ends
    with that attempt and the API stays in the state the answer left. *)
Theorem api_error_not_retried fuel filters properties limit retries all_results after w
    (k : nat) r w2 :
  (k < Z.to_nat retries)%nat →
  Forall (λ r, status_code r = 429)
    (serve post w (replicate k (page_payload filters properties limit after))).1 →
  post (page_payload filters properties limit after)
    (serve post w (replicate k (page_payload filters properties limit after))).2 = (r, w2) →
  status_code r ≠ 200 →
  status_code r ≠ 429 →
  let p := page_payload filters properties limit after in
  let x := while_pages post (S fuel) filters properties limit retries all_results after w in
  outcome_of x = Raise (Exception ("HubSpot API error: " +:+ pretty (status_code r)
                                     +:+ " - " +:+ text r)) ∧
  world_of x = w2 ∧
  trace_of x = (range (Z.of_nat k) ≫= rejected_attempt p) ++ [Sleep 200; Post p] ∧
  length (posts (trace_of x)) = S k.
Proof.
  intros Hk H429 Hpost H200 H429' p x.
  change (page_payload filters properties limit after) with p in H429, Hpost.
  set (served := serve post w (replicate k p)) in *.
  assert (x = Run (Raise (Exception ("HubSpot API error: " +:+ pretty (status_code r)
                                       +:+ " - " +:+ text r)))
                  w2 ((range (Z.of_nat k) ≫= rejected_attempt p) ++ [Sleep 200; Post p])) as ->.
  { unfold x. apply while_pages_raise. fold p.
    assert (length (range (Z.of_nat k)) = k) as Hlen by (rewrite length_range; lia).
    rewrite (range_split retries k Hk).
    rewrite for_attempt_rejected by (by rewrite Hlen).
    rewrite Hlen. fold served. rewrite for_attempt_cons, Hpost.
    apply Z.eqb_neq in H200 as ->. apply Z.eqb_neq in H429' as ->. done. }
  cbn [outcome_of world_of trace_of]. split_and!; try done.
  unfold posts. rewrite omap_app. fold posts. rewrite posts_rejected, length_app, length_replicate.
  rewrite length_range. simpl. lia.
Qed.

Lemma while_pages_paged filters properties limit retries after w bodies w' :
  0 < retries →
  paged post filters properties limit after w bodies w' →
  ∀ fuel all_results, (length bodies ≤ fuel)%nat →
  while_pages post fuel filters properties limit retries all_results after w =
    Run (Return (all_results ++ (bodies ≫= page_results))) w'
        (page_requests filters properties limit after bodies ≫= (λ p, [Sleep 200; Post p])).
Proof.
  intros Hretries Hpaged.
  assert (∃ rest, range retries = 0 :: rest) as [rest Hrange].
  { unfold range. destruct (Z.to_nat retries) as [|n] eqn:Hn; [lia|]. simpl. eauto. }
  induction Hpaged as [after w r w' Hpost Hstatus Hlast
                      |after w r w1 bodies w' Hpost Hstatus Hmore Hpaged IH];
    intros [|fuel] all_results Hfuel; simpl in Hfuel; try lia.
  - erewrite while_pages_unfold
      by (rewrite Hrange; by apply for_attempt_ok).
    rewrite Hlast. simpl. unfold page_results. by rewrite app_nil_r.
  - erewrite while_pages_unfold
      by (rewrite Hrange; by apply for_attempt_ok).
    rewrite Hmore. cbn [negb]. rewrite IH by lia. simpl.
    unfold page_results. by rewrite <- app_assoc.
Qed.

Lemma paged_cursors filters properties limit after w bodies w' :
  paged post filters properties limit after w bodies w' →
  ∀ i b, bodies !! i = Some b →
         (truthy_cursor (next_after b) = false ↔ S i = length bodies).
Proof.
  induction 1 as [after w r w' _ _ Hlast|after w r w1 bodies w' _ _ Hmore Hpaged IH];
    intros [|i] b Hb; simplify_eq/=.
  - done.
  - inversion Hpaged; simplify_eq/=; rewrite Hmore; split; intros; try done; lia.
  - rewrite IH by done. lia.
Qed.

Lemma page_requests_after filters properties limit after w bodies w' :
  paged post filters properties limit after w bodies w' →
  ∀ i p, page_requests filters properties limit after bodies !! S i = Some p →
         ∃ b, bodies !! i = Some b ∧ truthy_cursor (next_after b) = true
              ∧ after_of p = next_after b.
Proof.
  induction 1 as [after w r w' _ _ Hlast|after w r w1 bodies w' _ _ Hmore Hpaged IH];
    intros i p Hp; simpl in Hp.
  - done.
  - destruct i as [|i].
    + exists (json r). split_and!; [done..|].
      inversion Hpaged; simplify_eq/=; by rewrite Hmore.
    + by apply IH.
Qed.

(** C3: when the pages are each answered with status 200 and follow the
    cursor protocol, [fetch_all_hubspot_contacts] returns the results of
    all pages, concatenated in page order; it sends one request per page,
    the first without [after] and each later one with the cursor of the
    page before it; and the only page whose cursor is absent or empty is
    the last one fetched. *)
Theorem fetch_all_concatenates_pages fuel filters properties limit retries w bodies w' :
  0 < retries →
  paged post filters properties limit None w bodies w' →
  (length bodies ≤ fuel)%nat →
  let x := fetch_all_hubspot_contacts post fuel filters properties limit retries w in
  let requests := page_requests filters properties limit None bodies in
  outcome_of x = Return (bodies ≫= page_results) ∧
  world_of x = w' ∧
  posts (trace_of x) = requests ∧
  length requests = length bodies ∧
  (∀ p, requests !! 0%nat = Some p → after_of p = None) ∧
  (∀ i p, requests !! S i = Some p →
          ∃ b, bodies !! i = Some b ∧ truthy_cursor (next_after b) = true
               ∧ after_of p = next_after b) ∧
  (∀ i b, bodies !! i = Some b →
          (truthy_cursor (next_after b) = false ↔ S i = length bodies)).
Proof.
  intros Hretries Hpaged Hfuel x requests.
  unfold x, fetch_all_hubspot_contacts.
  rewrite (while_pages_paged _ _ _ _ _ _ _ _ Hretries Hpaged) by done.
  cbn [outcome_of world_of trace_of]. split_and!.
  - done.
  - done.
  - fold requests. clear. induction requests as [|p ps IH]; [done|]. simpl. by f_equal.
  - unfold requests. clear. generalize (@None string).
    induction bodies as [|b bodies IH]; intros after; [done|]. simpl. by rewrite IH.
  - unfold requests. destruct bodies; intros p; [done|]. by intros [= <-].
  - by eapply page_requests_after.
  - by eapply paged_cursors.
Qed.

End ApiFacts.

Lemma retry_exhausted_witness :
  0 ≤ 3 ∧
  outcome_of (while_pages Example.rate_limited 1 [] None 100 3 [] None ())
    = Raise (Exception "Exceeded retry limit for HubSpot API.") ∧
  sleeps (trace_of (while_pages Example.rate_limited 1 [] None 100 3 [] None ()))
    = [200; 500; 200; 1000; 200; 1500].
Proof.
  assert (H0 : 0 ≤ 3) by lia.
  assert (H429 : Forall (λ r, status_code r = 429)
            (serve Example.rate_limited ()
               (replicate (Z.to_nat 3) (page_payload [] None 100 None))).1)
    by (repeat constructor).
  pose proof (retry_exhausted Example.rate_limited 0 [] None 100 3 [] None () H0 H429)
    as (Ho & _ & _ & _ & Hs & _).
  split; [exact H0|]. split; [exact Ho|exact Hs].
Defined.

Lemma api_error_not_retried_witness :
  outcome_of (while_pages Example.flaky 1 [] None 100 3 [] None 0%nat)
    = Raise (Exception "HubSpot API error: 404 - Not Found") ∧
  world_of (while_pages Example.flaky 1 [] None 100 3 [] None 0%nat) = 2%nat ∧
  length (posts (trace_of (while_pages Example.flaky 1 [] None 100 3 [] None 0%nat))) = 2%nat.
Proof.
  assert (Hk : (1 < Z.to_nat 3)%nat) by (simpl; lia).
  assert (H429 : Forall (λ r, status_code r = 429)
            (serve Example.flaky 0%nat (replicate 1 (page_payload [] None 100 None))).1)
    by (repeat constructor).
  assert (Hpost : Example.flaky (page_payload [] None 100 None)
            (serve Example.flaky 0%nat (replicate 1 (page_payload [] None 100 None))).2
          = (Response 404 "Not Found" (Body None None), 2%nat)) by reflexivity.
  assert (H200 : status_code (Response 404 "Not Found" (Body None None)) ≠ 200)
    by discriminate.
  assert (H429' : status_code (Response 404 "Not Found" (Body None None)) ≠ 429)
    by discriminate.
  pose proof (api_error_not_retried Example.flaky 0 [] None 100 3 [] None 0%nat 1 _ _
                Hk H429 Hpost H200 H429') as (Ho & Hw & _ & Hn).
  split; [exact Ho|]. split; [exact Hw|exact Hn].
Defined.

Lemma fetch_all_concatenates_pages_witness :
  0 < 3 ∧
  outcome_of (fetch_all_hubspot_contacts Example.two_pages 5 [] None 100 3 ())
    = Return [Example.ann; Example.bob; Example.cho] ∧
  after_of <$> posts (trace_of (fetch_all_hubspot_contacts Example.two_pages 5 [] None 100 3 ()))
    = [None; Some "2"].
Proof.
  assert (H0 : 0 < 3) by lia.
  pose (b1 := Body (Some [Example.ann; Example.bob])
                (Some (Paging (Some (PagingNext (Some "2")))))).
  pose (b2 := Body (Some [Example.cho]) (Some (Paging None))).
  assert (Hp : paged Example.two_pages [] None 100 None () [b1; b2] ()).
  { eapply (paged_next Example.two_pages [] None 100 None () (Response 200 "" b1) ());
      [reflexivity..|].
    eapply (paged_last Example.two_pages [] None 100 (Some "2") () (Response 200 "" b2) ());
      reflexivity. }
  assert (Hfuel : (length [b1; b2] ≤ 5)%nat) by (simpl; lia).
  pose proof (fetch_all_concatenates_pages Example.two_pages 5 [] None 100 3 () [b1; b2] ()
                H0 Hp Hfuel) as (Ho & _ & Hposts & _).
  split; [exact H0|]. split; [exact Ho|]. rewrite Hposts. reflexivity.
Defined.

(** ** Reports *)

Section ScriptFacts.

Context {World : Type}.
Variable post : payload → World → response * World.
Context `{SetIteration}.
Variable cfg : config.
Variable clock : Z.

Lemma bind_outcome {A B} (m : M World A) (k : A → M World B) w a :
  outcome_of (m w) = Return a →
  outcome_of ((m ≫= k) w) = outcome_of (k a (world_of (m w))).
Proof.
  unfold mbind, M_bind, bind. destruct (m w) as [o w1 t1]. simpl. intros ->.
  by destruct (k a w1).
Qed.

Lemma sub_sources_of_spec grouped name :
  StronglySorted String.le (sub_sources_of grouped name) ∧
  NoDup (sub_sources_of grouped name) ∧
  ∀ s, s ∈ sub_sources_of grouped name ↔ s ∈ default [] (grouped !! name).
Proof.
  unfold sub_sources_of, sorted. split_and!.
  - apply (StronglySorted_merge_sort _).
  - rewrite merge_sort_Permutation, set_list_perm. apply NoDup_elements.
  - intros s. rewrite merge_sort_Permutation, set_list_perm.
    by rewrite elem_of_elements, elem_of_list_to_set.
Qed.

Lemma for_sub_source_outcome fuel (cnt : string → nat) sub_sources :
  (∀ s, s ∈ sub_sources →
        ∀ w, outcome_of (get_count_lead_source post clock fuel s w) = Return (cnt s)) →
  ∀ main_count sub_lines w,
    outcome_of (for_sub_source post clock fuel sub_sources main_count sub_lines w) =
      Return ((main_count + sum_list (cnt <$> sub_sources))%nat,
              sub_lines ++ ((λ s, count_line s (cnt s)) <$> sub_sources)).
Proof.
  induction sub_sources as [|s rest IH]; intros Hcnt main_count sub_lines w.
  - simpl. by rewrite Nat.add_0_r, app_nil_r.
  - cbn [for_sub_source].
    rewrite (bind_outcome _ _ _ (cnt s)) by (apply Hcnt; left).
    rewrite IH by (intros; apply Hcnt; by right).
    simpl. by rewrite Nat.add_assoc, <- app_assoc.
Qed.

Lemma for_bucket_outcome fuel (cnt : string → nat) grouped names :
  (∀ name s, name ∈ names → s ∈ default [] (grouped !! name) →
        ∀ w, outcome_of (get_count_lead_source post clock fuel s w) = Return (cnt s)) →
  ∀ output_lead_source w,
    outcome_of (for_bucket post clock fuel grouped names output_lead_source w) =
      Return (output_lead_source
              ++ (names ≫= λ name, bucket_block cnt name (sub_sources_of grouped name))).
Proof.
  induction names as [|name rest IH]; intros Hcnt output_lead_source w.
  - simpl. by rewrite app_nil_r.
  - cbn [for_bucket]. fold (sub_sources_of grouped name).
    change ((name :: rest) ≫= λ name, bucket_block cnt name (sub_sources_of grouped name))
      with (bucket_block cnt name (sub_sources_of grouped name)
            ++ (rest ≫= λ name, bucket_block cnt name (sub_sources_of grouped name))).
    pose proof (sub_sources_of_spec grouped name) as (_ & _ & Hmem).
    destruct (sub_sources_of grouped name) as [|s subs] eqn:Hsubs.
    + rewrite IH by (intros; eapply Hcnt; [by right|done]). reflexivity.
    + erewrite bind_outcome; last first.
      { apply for_sub_source_outcome. intros s' Hs' w'.
        eapply Hcnt; [by left|by apply Hmem]. }
      cbn beta iota. rewrite IH by (intros; eapply Hcnt; [by right|done]).
      unfold bucket_block. f_equal.
      repeat (rewrite <- app_assoc || rewrite <- app_comm_cons || rewrite app_nil_l).
      reflexivity.
Qed.

Lemma for_sales_direct_outcome fuel (cnt : string → string → nat) owners :
  (∀ property sales_id, sales_id ∈ owners →
     ∀ w, outcome_of (get_count_contact_owner post clock fuel property sales_id w)
          = Return (cnt property sales_id)) →
  ∀ output_sales_direct w,
    outcome_of (for_sales_direct post cfg clock fuel owners output_sales_direct w) =
      Return (output_sales_direct ++ (direct_paragraph_of cfg cnt <$> owners)).
Proof.
  induction owners as [|sales_id rest IH]; intros Hcnt output_sales_direct w.
  - simpl. by rewrite app_nil_r.
  - cbn [for_sales_direct].
    do 3 (erewrite bind_outcome by (apply Hcnt; left)).
    rewrite IH by (intros; apply Hcnt; by right).
    simpl. by rewrite <- app_assoc.
Qed.

Lemma for_cc_to_outcome fuel (cnt : string → option string → string → nat) owners :
  (∀ property takeover_type sales_id, sales_id ∈ owners →
     ∀ w, outcome_of (get_count_secondary_owner post clock fuel property sales_id
                        takeover_type w)
          = Return (cnt property takeover_type sales_id)) →
  ∀ output_cc_to w,
    outcome_of (for_cc_to post cfg clock fuel owners output_cc_to w) =
      Return (output_cc_to ++ (cc_paragraph_of cfg cnt <$> owners)).
Proof.
  induction owners as [|sales_id rest IH]; intros Hcnt output_cc_to w.
  - simpl. by rewrite app_nil_r.
  - cbn [for_cc_to].
    do 5 (erewrite bind_outcome by (apply Hcnt; left)).
    rewrite IH by (intros; apply Hcnt; by right).
    simpl. by rewrite <- app_assoc.
Qed.

Lemma truthy_prop_Some name c s :
  truthy_prop name c = Some s ↔ get_prop c name = PStr s ∧ s ≠ "".
Proof.
  unfold truthy_prop. destruct (get_prop c name) as [|s']; [naive_solver|].
  destruct (Str.truthy s') eqn:Ht.
  - apply Is_true_true in Ht. unfold Str.truthy in Ht.
    rewrite negb_True, bool_decide_spec in Ht. naive_solver.
  - apply Is_true_false in Ht. unfold Str.truthy in Ht.
    rewrite negb_True, bool_decide_spec in Ht. 
    split; [done|]. intros [[= ->] ?]. done.
Qed.

Lemma contact_owners_spec ls :
  NoDup (set_list (contact_owners_with_activity cfg ls)) ∧
  ∀ sales_id,
    sales_id ∈ set_list (contact_owners_with_activity cfg ls) ↔
    ∃ c, c ∈ lifecycle_contacts ls ∧ get_prop c "hubspot_owner_id" = PStr sales_id
         ∧ sales_id ≠ "" ∧ sales_id ∉ cc_team cfg.
Proof.
  split.
  - rewrite set_list_perm. apply NoDup_elements.
  - intros sales_id. rewrite set_list_perm, elem_of_elements.
    unfold contact_owners_with_activity.
    rewrite elem_of_list_to_set, list_elem_of_omap. split.
    + intros (c & Hc & Hs). exists c. split; [done|].
      unfold direct_owner in Hs.
      destruct (truthy_prop "hubspot_owner_id" c) as [s|] eqn:Hp; [|done].
      apply truthy_prop_Some in Hp as [Hp Hne]. case_bool_decide; naive_solver.
    + intros (c & Hc & Hp & Hne & Hcc). exists c. split; [done|].
      unfold direct_owner.
      rewrite (proj2 (truthy_prop_Some _ _ _) (conj Hp Hne)).
      by rewrite bool_decide_true.
Qed.

Lemma secondary_owners_spec ls :
  NoDup (set_list (secondary_owners_with_activity ls)) ∧
  ∀ sales_id,
    sales_id ∈ set_list (secondary_owners_with_activity ls) ↔
    ∃ c, c ∈ lifecycle_contacts ls ∧ get_prop c "secondary_owner" = PStr sales_id
         ∧ sales_id ≠ "".
Proof.
  split.
  - rewrite set_list_perm. apply NoDup_elements.
  - intros sales_id. rewrite set_list_perm, elem_of_elements.
    unfold secondary_owners_with_activity.
    rewrite elem_of_list_to_set, list_elem_of_omap.
    by setoid_rewrite truthy_prop_Some.
Qed.

Lemma group_sources_subseteq main srcs k l :
  group_sources main srcs !! k = Some l → l ⊆ srcs.
Proof.
  revert k l. induction srcs as [|s srcs IH] using rev_ind; intros k l.
  - unfold group_sources. simpl. rewrite grouped_sources_init_lookup.
    case_decide; [|done]. by intros [= <-].
  - rewrite group_sources_snoc. destruct (decide (s = "")) as [->|Hs].
    + rewrite group_source_empty. intros Hl x Hx.
      apply elem_of_app. left. by eapply IH.
    + destruct (assigned_bucket_total main s) as [b Hb].
      rewrite (group_source_lookup _ _ _ b k Hs Hb). case_decide as Hbk.
      * intros [l' [Hl' ->]]%fmap_Some x [Hx|Hx]%elem_of_app; apply elem_of_app.
        -- left. by eapply IH.
        -- by right.
      * intros Hl x Hx. apply elem_of_app. left. by eapply IH.
Qed.

(** C7: when the API counts [cnt s] contacts for each sub-source [s],
    the lead-source report is, for the configured names in order and then
    ["Other"], the block of each bucket: nothing for a bucket without
    sub-sources, and otherwise the header with the sum of the sub-source
    counts, one line per sub-source and an empty line; the sub-sources of
    a bucket are its members without repetition in ascending order. *)
Theorem lead_source_report fuel (cnt : string → nat) (lead_source_with_activity : list string) :
  (∀ s, s ∈ lead_source_with_activity →
        ∀ w, outcome_of (get_count_lead_source post clock fuel s w) = Return (cnt s)) →
  let grouped := group_sources (main_lead_source cfg) lead_source_with_activity in
  let names := main_lead_source cfg ++ ["Other"] in
  (∀ w, outcome_of (build_lead_source_report post cfg clock fuel lead_source_with_activity w)
        = Return (names ≫= λ name, bucket_block cnt name (sub_sources_of grouped name))) ∧
  (∀ name, StronglySorted String.le (sub_sources_of grouped name)
           ∧ NoDup (sub_sources_of grouped name)
           ∧ ∀ s, s ∈ sub_sources_of grouped name ↔ s ∈ default [] (grouped !! name)) ∧
  (∀ name, default [] (grouped !! name) = [] →
           bucket_block cnt name (sub_sources_of grouped name) = []) ∧
  (∀ name s subs, sub_sources_of grouped name = s :: subs →
           bucket_block cnt name (sub_sources_of grouped name) =
             [count_line name (sum_list (cnt <$> s :: subs))]
             ++ ((λ s, count_line s (cnt s)) <$> s :: subs) ++ [""]).
Proof.
  intros Hcnt grouped names. split_and!.
  - intros w. unfold build_lead_source_report. fold grouped names.
    rewrite (for_bucket_outcome fuel cnt); [done|].
    intros name s _ Hs. apply Hcnt.
    destruct (grouped !! name) as [l|] eqn:Hl; simpl in Hs; [|by apply elem_of_nil in Hs].
    by eapply group_sources_subseteq.
  - intros name. apply sub_sources_of_spec.
  - intros name Hempty.
    destruct (sub_sources_of_spec grouped name) as (_ & _ & Hmem).
    destruct (sub_sources_of grouped name) as [|s subs]; [done|].
    exfalso. rewrite Hempty in Hmem. eapply elem_of_nil, Hmem. left.
  - intros name s subs ->. done.
Qed.

(** C9, as the code has it: when the API counts [cnt_direct] and
    [cnt_cc] contacts, each owner report has one paragraph per distinct
    owner found in the lifecycle-stage data (for the sales-direct report:
    owners that are not in [cc_team]), in the order in which the set of
    owners is iterated; the paragraph shows the name [sales_team] gives
    to the owner, or the identifier itself when it gives none. *)
Theorem owner_reports fuel (cnt_direct : string → string → nat)
    (cnt_cc : string → option string → string → nat) (ls : lifecycle) :
  (∀ property sales_id, sales_id ∈ set_list (contact_owners_with_activity cfg ls) →
     ∀ w, outcome_of (get_count_contact_owner post clock fuel property sales_id w)
          = Return (cnt_direct property sales_id)) →
  (∀ property takeover_type sales_id,
     sales_id ∈ set_list (secondary_owners_with_activity ls) →
     ∀ w, outcome_of (get_count_secondary_owner post clock fuel property sales_id
                        takeover_type w)
          = Return (cnt_cc property takeover_type sales_id)) →
  let direct := set_list (contact_owners_with_activity cfg ls) in
  let secondary := set_list (secondary_owners_with_activity ls) in
  (∀ w, outcome_of (for_sales_direct post cfg clock fuel direct [] w)
        = Return (direct_paragraph_of cfg cnt_direct <$> direct)) ∧
  (∀ w, outcome_of (for_cc_to post cfg clock fuel secondary [] w)
        = Return (cc_paragraph_of cfg cnt_cc <$> secondary)) ∧
  NoDup direct ∧
  (∀ sales_id, sales_id ∈ direct ↔
     ∃ c, c ∈ lifecycle_contacts ls ∧ get_prop c "hubspot_owner_id" = PStr sales_id
          ∧ sales_id ≠ "" ∧ sales_id ∉ cc_team cfg) ∧
  NoDup secondary ∧
  (∀ sales_id, sales_id ∈ secondary ↔
     ∃ c, c ∈ lifecycle_contacts ls ∧ get_prop c "secondary_owner" = PStr sales_id
          ∧ sales_id ≠ "") ∧
  (∀ sales_id name, sales_team cfg !! sales_id = Some name →
                    sales_name_of cfg sales_id = name) ∧
  (∀ sales_id, sales_team cfg !! sales_id = None → sales_name_of cfg sales_id = sales_id).
Proof.
  intros Hdirect Hcc direct secondary. split_and!.
  - intros w. by rewrite (for_sales_direct_outcome fuel cnt_direct).
  - intros w. by rewrite (for_cc_to_outcome fuel cnt_cc).
  - apply contact_owners_spec.
  - apply contact_owners_spec.
  - apply secondary_owners_spec.
  - apply secondary_owners_spec.
  - intros sales_id name Hn. unfold sales_name_of. by rewrite Hn.
  - intros sales_id Hn. unfold sales_name_of. by rewrite Hn.
Qed.

End ScriptFacts.

Lemma lead_source_report_witness :
  (∀ s, s ∈ ["facebook ads"; "TikTok"; "FACEBOOK"] →
        ∀ w, outcome_of (get_count_lead_source Example.by_length Example.clock 5 s w)
             = Return (String.length s)) ∧
  outcome_of (@build_lead_source_report unit Example.by_length Example.in_elements_order
                Example.team Example.clock 5 ["facebook ads"; "TikTok"; "FACEBOOK"] ())
    = Return ["Facebook: 20"; "FACEBOOK: 8"; "facebook ads: 12"; "";
              "Other: 6"; "TikTok: 6"; ""].
Proof.
  assert (Hcnt : ∀ s, s ∈ ["facebook ads"; "TikTok"; "FACEBOOK"] →
            ∀ w, outcome_of (get_count_lead_source Example.by_length Example.clock 5 s w)
                 = Return (String.length s)).
  { intros s Hs [].
    repeat (apply elem_of_cons in Hs as [->|Hs]; [reflexivity|]).
    by apply elem_of_nil in Hs. }
  split; [exact Hcnt|].
  exact (proj1 (@lead_source_report unit Example.by_length Example.in_elements_order
                  Example.team Example.clock 5 String.length
                  ["facebook ads"; "TikTok"; "FACEBOOK"] Hcnt) ()).
Defined.

Lemma owner_reports_witness :
  let ls := Lifecycle [Example.ann; Example.bob] [] [] [] [] [] in
  (∀ property sales_id,
     sales_id ∈ @set_list Example.in_elements_order
                  (contact_owners_with_activity Example.team ls) →
     ∀ w, outcome_of (get_count_contact_owner Example.two_each Example.clock 5
                        property sales_id w)
          = Return 2%nat) ∧
  outcome_of (for_sales_direct Example.two_each Example.team Example.clock 5
                (@set_list Example.in_elements_order
                   (contact_owners_with_activity Example.team ls)) [] ())
    = Return [sales_direct_paragraph "Alice" 2 2 2; sales_direct_paragraph "b" 2 2 2].
Proof.
  intros ls.
  assert (Hdirect : ∀ property sales_id,
            sales_id ∈ @set_list Example.in_elements_order
                         (contact_owners_with_activity Example.team ls) →
            ∀ w, outcome_of (get_count_contact_owner Example.two_each Example.clock 5
                               property sales_id w)
                 = Return 2%nat) by (intros property sales_id _ []; reflexivity).
  assert (Hcc : ∀ property takeover_type sales_id,
            sales_id ∈ @set_list Example.in_elements_order (secondary_owners_with_activity ls) →
            ∀ w, outcome_of (get_count_secondary_owner Example.two_each Example.clock 5
                               property sales_id takeover_type w)
                 = Return 2%nat) by (intros property takeover_type sales_id _ []; reflexivity).
  split; [exact Hdirect|].
  exact (proj1 (@owner_reports unit Example.two_each Example.in_elements_order
                  Example.team Example.clock 5 (λ _ _, 2%nat) (λ _ _ _, 2%nat) ls
                  Hdirect Hcc) ()).
Defined.

(** C9 as stated fails: the owners are collected in a set, and a set is
    not iterated in insertion order.  Here owner ["b"] is seen before
    owner ["a"], the set is iterated in the order of [elements], and the
    report shows ["a"] (by its name) before ["b"]. *)
Lemma owner_order_not_first_seen :
  let ls := Lifecycle [Example.ann; Example.bob] [] [] [] [] [] in
  first_seen (omap (direct_owner Example.team) (lifecycle_contacts ls)) = ["b"; "a"] ∧
  outcome_of (for_sales_direct Example.two_each Example.team Example.clock 5
                (@set_list Example.in_elements_order
                   (contact_owners_with_activity Example.team ls)) [] ())
    = Return [direct_paragraph_of Example.team (λ _ _, 2%nat) "a";
              direct_paragraph_of Example.team (λ _ _, 2%nat) "b"].
Proof. split; by vm_compute. Qed.

(** * Further properties *)

(** ** Requests and sleeps of the fetch *)

Lemma paced_app t1 t2 : paced t1 → paced t2 → paced (t1 ++ t2).
Proof.
  intros H1 H2. induction H1; simpl; [done|apply paced_sleep|apply paced_post]; done.
Qed.

Lemma paced_post_inv t pre p post :
  paced t → t = pre ++ Post p :: post → ∃ pre', pre = pre' ++ [Sleep 200].
Proof.
  intros Ht. revert pre. induction Ht as [|ms t Ht IH|q t Ht IH]; intros pre E.
  - by destruct pre.
  - destruct pre as [|e pre]; simplify_eq/=.
    destruct (IH pre eq_refl) as [pre' ->]. by exists (Sleep ms :: pre').
  - destruct pre as [|e pre]; simplify_eq/=.
    destruct pre as [|e' pre]; simplify_eq/=; [by exists []|].
    destruct (IH pre eq_refl) as [pre' ->]. by exists (Sleep 200 :: Post q :: pre').
Qed.

Section TraceFacts.

Context {World : Type}.
Variable post : payload → World → response * World.
Variable Qp : payload → Prop.
Variable Qs : Z → Prop.

Lemma trace_within_nil : trace_within Qp Qs [].
Proof. split_and!; constructor. Qed.

Lemma trace_within_app t1 t2 :
  trace_within Qp Qs t1 → trace_within Qp Qs t2 → trace_within Qp Qs (t1 ++ t2).
Proof.
  intros (? & ? & ?) (? & ? & ?). unfold trace_within, posts, sleeps.
  rewrite !omap_app, !Forall_app. split_and!; try done. by apply paced_app.
Qed.

Lemma trace_within_bind {A B} (m : M World A) (k : A → M World B) w :
  trace_within Qp Qs (trace_of (m w)) →
  (∀ a w1, trace_within Qp Qs (trace_of (k a w1))) →
  trace_within Qp Qs (trace_of ((m ≫= k) w)).
Proof.
  intros Hm Hk. unfold mbind, M_bind, bind.
  destruct (m w) as [[a| |] w1 t1]; simpl in *; try done.
  specialize (Hk a w1). destruct (k a w1) as [o w2 t2]; simpl in *.
  by apply trace_within_app.
Qed.

Lemma for_attempt_within p attempts w :
  Qp p → Qs 200 → Forall (λ attempt, Qs (backoff attempt)) attempts →
  trace_within Qp Qs (trace_of (for_attempt post p attempts w)).
Proof.
  intros Hp H200. revert w. induction attempts as [|a attempts IH]; intros w Hb.
  - apply trace_within_nil.
  - apply Forall_cons in Hb as [Ha Hb]. rewrite for_attempt_cons.
    destruct (post p w) as [r w1].
    assert (trace_within Qp Qs [Sleep 200; Post p]) as Hone.
    { split_and!; repeat constructor; done. }
    destruct (status_code r =? 200); [done|].
    destruct (status_code r =? 429); [|done].
    cbn [trace_of]. apply trace_within_app; [|by apply IH].
    split_and!; repeat constructor; done.
Qed.

Lemma while_pages_within fuel filters properties limit retries all_results after w :
  (∀ after, Qp (page_payload filters properties limit after)) →
  Qs 200 → Forall (λ attempt, Qs (backoff attempt)) (range retries) →
  trace_within Qp Qs
    (trace_of (while_pages post fuel filters properties limit retries all_results after w)).
Proof.
  intros Hp H200 Hb. revert all_results after w.
  induction fuel as [|fuel IH]; intros all_results after w.
  - apply trace_within_nil.
  - cbn [while_pages]. apply trace_within_bind; [by apply for_attempt_within|].
    intros r w1. destruct (negb _); [apply trace_within_nil|apply IH].
Qed.

End TraceFacts.

Lemma elem_of_range (n a : Z) : a ∈ range n ↔ 0 ≤ a < n.
Proof.
  unfold range. rewrite list_elem_of_fmap. setoid_rewrite elem_of_seq. split.
  - intros (k & -> & Hk). lia.
  - intros Ha. exists (Z.to_nat a). lia.
Qed.

Section FetchFacts.

Context {World : Type}.
Variable post : payload → World → response * World.

(** X1: whatever the API answers and however long the fetch runs: every
    request comes directly after a sleep of 0.2 s; every request carries
    the filters and the limit given, the properties given or ["email"]
    in their place, never an empty list of properties and never an empty
    cursor; and every sleep is the pause of 0.2 s or one of the backoffs
    [(attempt + 1) * 0.5] s with [attempt < retries]. *)
Theorem fetch_trace_invariant fuel filters properties limit retries w :
  let t := trace_of (fetch_all_hubspot_contacts post fuel filters properties limit retries w) in
  (∀ pre p rest, t = pre ++ Post p :: rest → ∃ pre', pre = pre' ++ [Sleep 200]) ∧
  (∀ p, p ∈ posts t →
        filters_of p = filters ∧ limit_of p = limit
        ∧ properties_of p = properties_or_email properties ∧ properties_of p ≠ []
        ∧ after_of p ≠ Some "") ∧
  (∀ ms, ms ∈ sleeps t →
         ms = 200 ∨ ∃ attempt, 0 ≤ attempt < retries ∧ ms = (attempt + 1) * 500).
Proof.
  intros t.
  assert (trace_within
            (λ p, filters_of p = filters ∧ limit_of p = limit
                  ∧ properties_of p = properties_or_email properties ∧ properties_of p ≠ []
                  ∧ after_of p ≠ Some "")
            (retry_sleep retries) t) as (Hpaced & Hposts & Hsleeps).
  { apply while_pages_within.
    - intros after. cbn [page_payload filters_of limit_of properties_of after_of].
      split_and!; try done.
      + by destruct properties as [[|??]|].
      + destruct after as [[|??]|]; done.
    - by left.
    - apply Forall_forall. intros a Ha%elem_of_range. right. by exists a. }
  split_and!.
  - intros pre p rest E. by eapply paced_post_inv.
  - intros p Hp. by eapply Forall_forall in Hposts.
  - intros ms Hms. by eapply Forall_forall in Hsleeps.
Qed.

(** X2: with [retries] zero or negative there is no attempt: the fetch
    raises the retry-limit exception at once, without a sleep and
    without a request. *)
Theorem fetch_without_attempts fuel filters properties limit retries w :
  retries ≤ 0 →
  fetch_all_hubspot_contacts post (S fuel) filters properties limit retries w
    = Run (Raise (Exception "Exceeded retry limit for HubSpot API.")) w [].
Proof.
  intros Hr. unfold fetch_all_hubspot_contacts. apply while_pages_raise.
  unfold range. replace (Z.to_nat retries) with 0%nat by lia. done.
Qed.

(** X3: a page that is answered with 429 at its first [k] attempts and with
    200 at the next one is taken: its results are added, the trace is
    that of [k] rejected attempts and one accepted, and when the answer
    has a cursor the loop goes on from it with all [retries] attempts at
    hand again. *)
Theorem page_taken_after_rejections fuel filters properties limit retries all_results after w
    (k : nat) r w2 :
  (k < Z.to_nat retries)%nat →
  Forall (λ r, status_code r = 429)
    (serve post w (replicate k (page_payload filters properties limit after))).1 →
  post (page_payload filters properties limit after)
    (serve post w (replicate k (page_payload filters properties limit after))).2 = (r, w2) →
  status_code r = 200 →
  let p := page_payload filters properties limit after in
  let t := (range (Z.of_nat k) ≫= rejected_attempt p) ++ [Sleep 200; Post p] in
  let all_results' := all_results ++ page_results (json r) in
  while_pages post (S fuel) filters properties limit retries all_results after w =
    if truthy_cursor (next_after (json r)) then
      let x := while_pages post fuel filters properties limit retries all_results'
                 (next_after (json r)) w2 in
      Run (outcome_of x) (world_of x) (t ++ trace_of x)
    else Run (Return all_results') w2 t.
Proof.
  intros Hk H429 Hpost H200 p t all_results'.
  change (page_payload filters properties limit after) with p in H429, Hpost.
  assert (for_attempt post p (range retries) w = Run (Return r) w2 t) as Hfor.
  { assert (length (range (Z.of_nat k)) = k) as Hlen by (rewrite length_range; lia).
    rewrite (range_split retries k Hk).
    rewrite for_attempt_rejected by (by rewrite Hlen).
    rewrite Hlen. by rewrite (for_attempt_ok _ _ _ _ _ r w2 Hpost H200). }
  rewrite (while_pages_unfold _ _ _ _ _ _ _ _ _ _ _ _ Hfor).
  by destruct (truthy_cursor _).
Qed.

(** X5: there is no bound on the number of pages: while the API answers
    every request with status 200 and a cursor that is not empty, the
    loop keeps on asking; after [fuel] turns it has sent [fuel] requests,
    slept 0.2 s before each of them, and has neither returned nor
    raised. *)
Theorem fetch_follows_every_cursor fuel filters properties limit retries w :
  0 < retries →
  (∀ p w, status_code (post p w).1 = 200
          ∧ truthy_cursor (next_after (json (post p w).1)) = true) →
  let x := fetch_all_hubspot_contacts post fuel filters properties limit retries w in
  outcome_of x = Diverge ∧
  length (posts (trace_of x)) = fuel ∧
  sleeps (trace_of x) = replicate fuel 200.
Proof.
  intros Hretries Hpost. unfold fetch_all_hubspot_contacts.
  assert (∃ rest, range retries = 0 :: rest) as [rest Hrange].
  { unfold range. destruct (Z.to_nat retries) as [|n] eqn:Hn; [lia|]. simpl. eauto. }
  generalize (@nil contact) as all_results. generalize (@None string) as after. revert w.
  induction fuel as [|fuel IH]; intros w after all_results; [done|].
  destruct (post (page_payload filters properties limit after) w) as [r w1] eqn:Hp.
  destruct (Hpost (page_payload filters properties limit after) w) as [H200 Hcur].
  rewrite Hp in H200, Hcur. simpl in H200, Hcur.
  erewrite while_pages_unfold by (rewrite Hrange; by apply for_attempt_ok).
  rewrite Hcur. cbn [negb outcome_of trace_of].
  destruct (IH w1 (next_after (json r)) (all_results ++ default [] (results (json r))))
    as (Ho & Hn & Hs).
  split_and!; [done| |].
  - simpl. by rewrite Hn.
  - simpl. by rewrite Hs.
Qed.

End FetchFacts.

Lemma fetch_without_attempts_witness :
  -1 ≤ 0 ∧
  fetch_all_hubspot_contacts Example.two_pages 1 [] None 100 (-1) ()
    = Run (Raise (Exception "Exceeded retry limit for HubSpot API.")) () [].
Proof.
  assert (H0 : -1 ≤ 0) by lia.
  split; [exact H0|].
  exact (fetch_without_attempts Example.two_pages 0 [] None 100 (-1) () H0).
Defined.

Lemma page_taken_after_rejections_witness :
  outcome_of (while_pages Example.recovering 1 [] None 100 3 [] None 0%nat)
    = Return [Example.ann] ∧
  sleeps (trace_of (while_pages Example.recovering 1 [] None 100 3 [] None 0%nat))
    = [200; 500; 200].
Proof.
  assert (Hk : (1 < Z.to_nat 3)%nat) by (simpl; lia).
  assert (H429 : Forall (λ r, status_code r = 429)
            (serve Example.recovering 0%nat (replicate 1 (page_payload [] None 100 None))).1)
    by (repeat constructor).
  assert (Hpost : Example.recovering (page_payload [] None 100 None)
            (serve Example.recovering 0%nat (replicate 1 (page_payload [] None 100 None))).2
          = (Response 200 "" (Body (Some [Example.ann]) None), 2%nat)) by reflexivity.
  assert (H200 : status_code (Response 200 "" (Body (Some [Example.ann]) None)) = 200)
    by reflexivity.
  pose proof (page_taken_after_rejections Example.recovering 0 [] None 100 3 [] None 0%nat 1
                _ _ Hk H429 Hpost H200) as E.
  cbv zeta in E. rewrite E. split; reflexivity.
Defined.

Lemma fetch_follows_every_cursor_witness :
  0 < 3 ∧
  outcome_of (fetch_all_hubspot_contacts Example.endless 4 [] None 100 3 ()) = Diverge ∧
  length (posts (trace_of (fetch_all_hubspot_contacts Example.endless 4 [] None 100 3 ())))
    = 4%nat.
Proof.
  assert (H0 : 0 < 3) by lia.
  assert (Hpost : ∀ p w, status_code (Example.endless p w).1 = 200
            ∧ truthy_cursor (next_after (json (Example.endless p w).1)) = true)
    by (intros p w; split; reflexivity).
  pose proof (fetch_follows_every_cursor Example.endless 4 [] None 100 3 () H0 Hpost)
    as (Ho & Hn & _).
  split; [exact H0|]. split; [exact Ho|exact Hn].
Defined.

(** ** The cost of one page *)

Lemma total_sleep_app t1 t2 : total_sleep (t1 ++ t2) = total_sleep t1 + total_sleep t2.
Proof.
  unfold total_sleep, sleeps. rewrite omap_app.
  induction (omap _ t1) as [|x l IH]; simpl; lia.
Qed.

Section AttemptFacts.

Context {World : Type}.
Variable post : payload → World → response * World.

Lemma for_attempt_bounds p attempts w :
  Forall (λ attempt, 0 ≤ attempt) attempts →
  (length (posts (trace_of (for_attempt post p attempts w))) ≤ length attempts)%nat ∧
  total_sleep (trace_of (for_attempt post p attempts w))
    ≤ foldr (λ attempt acc, 200 + backoff attempt + acc) 0 attempts.
Proof.
  revert w. induction attempts as [|a attempts IH]; intros w Hpos; [done|].
  apply Forall_cons in Hpos as [Ha Hpos].
  assert (0 ≤ foldr (λ attempt acc, 200 + backoff attempt + acc) 0 attempts) as Hsum.
  { clear -Hpos. induction Hpos as [|x l Hx _ IH]; cbn [foldr]; [done|].
    unfold backoff in *. lia. }
  rewrite for_attempt_cons. destruct (post p w) as [r w1].
  cbn [foldr length]. unfold backoff in *.
  destruct (status_code r =? 200); [cbn; unfold total_sleep; simpl; lia|].
  destruct (status_code r =? 429); [|cbn; unfold total_sleep; simpl; lia].
  destruct (IH w1 Hpos) as [Hn Hs]. cbn [trace_of]. split.
  - unfold posts in *. rewrite omap_app, length_app. simpl. lia.
  - rewrite total_sleep_app. unfold rejected_attempt, backoff.
    unfold total_sleep at 1. simpl. lia.
Qed.

Lemma range_sleep_sum (n : nat) :
  foldr (λ attempt acc, 200 + backoff attempt + acc) 0 (range (Z.of_nat n))
  = 200 * Z.of_nat n + 250 * Z.of_nat n * (Z.of_nat n + 1).
Proof.
  unfold range. rewrite Nat2Z.id. induction n as [|n IH]; [done|].
  rewrite seq_S, fmap_app, foldr_app. simpl.
  assert (∀ l acc, foldr (λ attempt acc, 200 + backoff attempt + acc) acc l
                   = acc + foldr (λ attempt acc, 200 + backoff attempt + acc) 0 l) as Hacc.
  { clear. induction l as [|x l IH]; intros acc; simpl; [lia|]. rewrite IH. lia. }
  rewrite Hacc, IH. unfold backoff. lia.
Qed.

(** X4: whatever the API answers, one page costs at most [retries] requests
    and at most [0.2 * retries + 0.25 * retries * (retries + 1)] seconds
    of sleep: 3.6 s with the default of three attempts. *)
Theorem page_attempts_bounded p retries w :
  0 ≤ retries →
  let t := trace_of (for_attempt post p (range retries) w) in
  Z.of_nat (length (posts t)) ≤ retries ∧
  total_sleep t ≤ 200 * retries + 250 * retries * (retries + 1).
Proof.
  intros Hretries t.
  destruct (for_attempt_bounds p (range retries) w) as [Hn Hs].
  { apply Forall_forall. intros a Ha%elem_of_range. lia. }
  rewrite length_range in Hn. split; [unfold t; lia|].
  unfold t. etrans; [exact Hs|].
  rewrite <- (Z2Nat.id retries) at 1 by done. rewrite range_sleep_sum. lia.
Qed.

End AttemptFacts.

Lemma page_attempts_bounded_witness :
  0 ≤ 3 ∧
  total_sleep (trace_of (for_attempt Example.flaky (page_payload [] None 100 None)
                           (range 3) 0%nat))
    ≤ 3600.
Proof.
  assert (H0 : 0 ≤ 3) by lia.
  split; [exact H0|].
  exact (proj2 (page_attempts_bounded Example.flaky (page_payload [] None 100 None) 3 0%nat H0)).
Defined.

(** ** The time window, day by day *)

Lemma start_timestamp_on_day clock d :
  local_day_of clock d →
  Z.abs ((d - 1) * 86400 + 36000) < 2 ^ 42 →
  start_timestamp clock = wall_clock_ms (d - 1) 17 0 0 0.
Proof.
  intros Hd Hrange.
  unfold start_timestamp, timestamp, start_time, epoch_microseconds, replace, minus_days.
  cbn [day hour minute second microsecond].
  rewrite (datetime_now_day clock d Hd). unfold wall_clock_ms, utcoffset.
  replace (((d - 1) * 86400 + 17 * 3600 + 0 * 60 + 0 - 7 * 3600) * 1000000 + 0)
    with (((d - 1) * 86400 + 36000) * 1000000) by lia.
  rewrite to_int_seconds; lia.
Qed.

Lemma end_timestamp_on_day clock d :
  local_day_of clock d →
  0 ≤ d ≤ 198840 →
  end_timestamp clock = wall_clock_ms d 16 59 59 999.
Proof.
  intros Hd Hrange.
  unfold end_timestamp, timestamp, end_time, epoch_microseconds, replace.
  cbn [day hour minute second microsecond].
  rewrite (datetime_now_day clock d Hd). unfold wall_clock_ms, utcoffset.
  replace ((d * 86400 + 16 * 3600 + 59 * 60 + 59 - 7 * 3600) * 1000000 + 999999)
    with ((d * 86400 + 35999) * 1000000 + 999999) by lia.
  rewrite to_int_last_microsecond; [lia|lia|].
  change (2 ^ 34) with 17179869184. lia.
Qed.

(** X7: [start_timestamp] is 17:00:00.000 of the previous day at UTC+7 for
    every day on which [datetime] has a yesterday, 0001-01-02 (day
    -719161) to 9999-12-31 (day 2932896): it is a whole number of seconds,
    on which the [float] arithmetic is exact. *)
Theorem window_start_exact (clock d : Z) :
  local_day_of clock d →
  -719161 ≤ d ≤ 2932896 →
  start_timestamp clock = wall_clock_ms (d - 1) 17 0 0 0 ∧
  start_timestamp clock mod 1000 = 0.
Proof.
  intros Hd Hrange.
  rewrite (start_timestamp_on_day clock d Hd)
    by (change (2 ^ 42) with 4398046511104; lia).
  split; [done|]. unfold wall_clock_ms.
  replace (((d - 1) * 86400 + 17 * 3600 + 0 * 60 + 0 - 7 * 3600) * 1000 + 0)
    with (((d - 1) * 86400 + 36000) * 1000) by lia.
  apply Z.mod_mul. lia.
Qed.

(** X8: the window belongs to the calendar day, not to the time of day: two
    runs on the same day at UTC+7 compute the same two timestamps,
    whatever the day. *)
Theorem window_same_on_a_day (clock1 clock2 d : Z) :
  local_day_of clock1 d →
  local_day_of clock2 d →
  start_timestamp clock1 = start_timestamp clock2 ∧
  end_timestamp clock1 = end_timestamp clock2.
Proof.
  intros H1 H2.
  unfold start_timestamp, end_timestamp, timestamp, start_time, end_time.
  unfold epoch_microseconds, replace, minus_days.
  cbn [day hour minute second microsecond].
  by rewrite (datetime_now_day clock1 d H1), (datetime_now_day clock2 d H2).
Qed.

(** X9: from 1970-01-01 to 2514-05-29 the window is one millisecond short of
    24 hours, and the window of the next day's run begins on the
    millisecond after it ends: with [BETWEEN] taking both ends in, runs on
    consecutive days leave no instant out and take none twice. *)
Theorem windows_adjacent (clock clock' d : Z) :
  local_day_of clock d →
  local_day_of clock' (d + 1) →
  0 ≤ d ≤ 198840 →
  end_timestamp clock - start_timestamp clock = 86399999 ∧
  start_timestamp clock' = end_timestamp clock + 1.
Proof.
  intros Hd Hd' Hrange.
  rewrite (end_timestamp_on_day clock d Hd Hrange).
  rewrite (start_timestamp_on_day clock d Hd)
    by (change (2 ^ 42) with 4398046511104; lia).
  rewrite (start_timestamp_on_day clock' (d + 1) Hd')
    by (change (2 ^ 42) with 4398046511104; lia).
  unfold wall_clock_ms. lia.
Qed.

Lemma window_start_exact_witness :
  local_day_of (-86400000000) (-1) ∧ -719161 ≤ -1 ≤ 2932896 ∧
  start_timestamp (-86400000000) = -136800000.
Proof.
  assert (Hd : local_day_of (-86400000000) (-1)) by (unfold local_day_of; lia).
  assert (Hrange : -719161 ≤ -1 ≤ 2932896) by lia.
  split; [exact Hd|]. split; [exact Hrange|].
  exact (proj1 (window_start_exact (-86400000000) (-1) Hd Hrange)).
Defined.

Lemma window_same_on_a_day_witness :
  local_day_of Example.clock 20395 ∧
  local_day_of (Example.clock - 3600000000) 20395 ∧
  start_timestamp Example.clock = start_timestamp (Example.clock - 3600000000) ∧
  end_timestamp Example.clock = end_timestamp (Example.clock - 3600000000).
Proof.
  assert (H1 : local_day_of Example.clock 20395)
    by (unfold local_day_of, Example.clock; lia).
  assert (H2 : local_day_of (Example.clock - 3600000000) 20395)
    by (unfold local_day_of, Example.clock; lia).
  split; [exact H1|]. split; [exact H2|].
  exact (window_same_on_a_day Example.clock (Example.clock - 3600000000) 20395 H1 H2).
Defined.

Lemma windows_adjacent_witness :
  local_day_of Example.clock 20395 ∧
  local_day_of (Example.clock + 86400000000) (20395 + 1) ∧
  0 ≤ 20395 ≤ 198840 ∧
  end_timestamp Example.clock - start_timestamp Example.clock = 86399999 ∧
  start_timestamp (Example.clock + 86400000000) = end_timestamp Example.clock + 1.
Proof.
  assert (H1 : local_day_of Example.clock 20395)
    by (unfold local_day_of, Example.clock; lia).
  assert (H2 : local_day_of (Example.clock + 86400000000) (20395 + 1))
    by (unfold local_day_of, Example.clock; lia).
  assert (Hrange : 0 ≤ 20395 ≤ 198840) by lia.
  split; [exact H1|]. split; [exact H2|]. split; [exact Hrange|].
  exact (windows_adjacent Example.clock (Example.clock + 86400000000) 20395 H1 H2 Hrange).
Defined.

(** X10: from 1970-01-01 to 2514-05-29: the window begins before the run,
    and it has ended before the run exactly when the run is at 17:00 or
    later at UTC+7; a run earlier in the day asks for a window that
    still reaches into the future. *)
Theorem window_and_now (clock d : Z) :
  local_day_of clock d →
  0 ≤ d ≤ 198840 →
  start_timestamp clock * 1000 < clock ∧
  (end_timestamp clock * 1000 + 999 < clock ↔ 17 ≤ hour (datetime_now clock)).
Proof.
  intros Hd Hrange.
  rewrite (end_timestamp_on_day clock d Hd Hrange).
  rewrite (start_timestamp_on_day clock d Hd)
    by (change (2 ^ 42) with 4398046511104; lia).
  unfold wall_clock_ms, datetime_now, utcoffset. cbn [hour].
  unfold local_day_of in Hd.
  assert ((clock + 7 * 3600 * 1000000) mod 86400000000
          = clock + 7 * 3600 * 1000000 - d * 86400000000) as ->.
  { symmetry. apply Z.mod_unique with (q := d); lia. }
  split; [lia|].
  split.
  - intros Hlt. apply Z.div_le_lower_bound; lia.
  - intros Hh.
    assert (17 * 3600000000 ≤ clock + 7 * 3600 * 1000000 - d * 86400000000); [|lia].
    destruct (Z_le_gt_dec (17 * 3600000000) (clock + 7 * 3600 * 1000000 - d * 86400000000))
      as [?|Hgt]; [done|].
    assert ((clock + 7 * 3600 * 1000000 - d * 86400000000) / 3600000000 < 17); [|lia].
    apply Z.div_lt_upper_bound; lia.
Qed.

Lemma window_and_now_witness :
  local_day_of Example.clock 20395 ∧ 0 ≤ 20395 ≤ 198840 ∧
  start_timestamp Example.clock * 1000 < Example.clock ∧
  (end_timestamp Example.clock * 1000 + 999 < Example.clock
   ↔ 17 ≤ hour (datetime_now Example.clock)).
Proof.
  assert (Hd : local_day_of Example.clock 20395)
    by (unfold local_day_of, Example.clock; lia).
  assert (Hrange : 0 ≤ 20395 ≤ 198840) by lia.
  split; [exact Hd|]. split; [exact Hrange|].
  exact (window_and_now Example.clock 20395 Hd Hrange).
Defined.

(** ** The lead-source dictionary and its residual *)

(** X11: the dictionary [lead_sources] has the key ["no_lead_source"], which
    holds the contacts with a blank [lead_source], and the lower-case
    forms of the configured names.  Under the lower-case form of a name
    it holds the contacts that match that name, also when several names
    have the same lower-case form; only a name whose lower-case form is
    ["no_lead_source"] loses its entry. *)
Theorem lead_sources_entries (main : list string) (lc : list contact) :
  dom (lead_sources main lc) = {["no_lead_source"]} ∪ list_to_set (Str.lower <$> main) ∧
  lead_sources main lc !! "no_lead_source" = Some (match_blank_lead_source lc) ∧
  ∀ s, s ∈ main → Str.lower s ≠ "no_lead_source" →
       lead_sources main lc !! Str.lower s = Some (match_lead_source lc s).
Proof.
  split_and!.
  - apply lead_sources_dom.
  - apply lead_sources_lookup_blank.
  - intros s Hs Hne. by apply lead_sources_lookup.
Qed.

Lemma sum_len_nonneg d : 0 ≤ sum_len d.
Proof.
  induction d as [|k v d Hk IH] using map_ind; [by rewrite sum_len_empty|].
  rewrite sum_len_insert by done. lia.
Qed.

Lemma sum_len_zero d : sum_len d = 0 ↔ ∀ k v, d !! k = Some v → v = [].
Proof.
  induction d as [|k v d Hk IH] using map_ind.
  - rewrite sum_len_empty. split; [|done]. intros _ k v. by rewrite lookup_empty.
  - rewrite sum_len_insert by done. pose proof (sum_len_nonneg d). split.
    + intros Hs k' v' Hl. destruct (decide (k = k')) as [->|Hne].
      * rewrite lookup_insert_eq in Hl. injection Hl as <-.
        destruct v as [|c0 v]; [done|]. rewrite length_cons in Hs. lia.
      * rewrite lookup_insert_ne in Hl by done. eapply (proj1 IH); [lia|done].
    + intros Hall. rewrite (Hall k v) by apply lookup_insert_eq.
      rewrite (proj2 IH); [done|].
      intros k' v' Hl. apply (Hall k'). rewrite lookup_insert_ne; [done|].
      intros ->. congruence.
Qed.

(** [lead_sources] as a dictionary of tests, each applied to the
    contacts. *)
Lemma lead_sources_tests main :
  ∃ tests : gmap string (contact → bool),
    ∀ lc, lead_sources main lc = (λ f : contact → bool, filter (λ c, f c) lc) <$> tests.
Proof.
  assert (∃ tests : gmap string (contact → bool), ∀ lc,
    foldl (λ d source, <[Str.lower source := match_lead_source lc source]> d)
          (∅ : gmap string (list contact)) main
    = (λ f : contact → bool, filter (λ c, f c) lc) <$> tests) as [tests Ht].
  { induction main as [|x main [tests IH]] using rev_ind.
    - exists ∅. intros lc. by rewrite fmap_empty.
    - exists (<[Str.lower x :=
                 λ c, Str.contains (Str.lower x)
                        (Str.lower (or_empty (get_prop c "lead_source")))]> tests).
      intros lc. rewrite foldl_app. cbn [foldl]. by rewrite IH, fmap_insert. }
  exists (<["no_lead_source" := λ c, negb (truthy (get_prop c "lead_source"))]> tests).
  intros lc. unfold lead_sources. by rewrite Ht, fmap_insert.
Qed.

Lemma sum_len_tests_app (tests : gmap string (contact → bool)) l1 l2 :
  sum_len ((λ f : contact → bool, filter (λ c, f c) (l1 ++ l2)) <$> tests) =
  sum_len ((λ f : contact → bool, filter (λ c, f c) l1) <$> tests)
  + sum_len ((λ f : contact → bool, filter (λ c, f c) l2) <$> tests).
Proof.
  induction tests as [|k f tests Hk IH] using map_ind.
  - by rewrite !fmap_empty, sum_len_empty.
  - rewrite !fmap_insert, !sum_len_insert by (by rewrite lookup_fmap, Hk).
    rewrite IH, filter_app, length_app. lia.
Qed.

(** X12: the residual [other_source] adds up over the created leads: each
    lead contributes one, less the number of buckets of [lead_sources] it
    lies in.  So a lead in no bucket contributes 1, a lead in one bucket
    0, and a lead in several buckets a negative number; a lead whose
    [lead_source] is blank is in the bucket ["no_lead_source"] and never
    contributes 1. *)
Theorem other_source_adds_up (main : list string) (l1 l2 : list contact) (c : contact) :
  other_source main [] = 0 ∧
  other_source main (l1 ++ l2) = other_source main l1 + other_source main l2 ∧
  other_source main [c] ≤ 1 ∧
  (other_source main [c] = 1 ↔ unmatched_lead_source main c).
Proof.
  destruct (lead_sources_tests main) as [tests Ht]. split_and!.
  - unfold other_source. rewrite Ht. simpl length.
    rewrite (proj2 (sum_len_zero _)); [done|].
    intros k v. rewrite lookup_fmap. destruct (tests !! k); [|done]. by intros [= <-].
  - unfold other_source. rewrite !Ht, sum_len_tests_app, length_app. lia.
  - unfold other_source. pose proof (sum_len_nonneg (lead_sources main [c])).
    simpl length. lia.
  - pose proof (lead_sources_dom main [c]) as Hdom.
    pose proof (lead_sources_lookup_blank main [c]) as Hblank.
    pose proof (lead_sources_lookup main [c]) as Hmain.
    assert (other_source main [c] = 1 ↔ sum_len (lead_sources main [c]) = 0) as ->
      by (unfold other_source; simpl length; lia).
    rewrite sum_len_zero. unfold unmatched_lead_source. split.
    + intros Hall. split.
      * apply Hall in Hblank. unfold match_blank_lead_source in Hblank.
        rewrite filter_cons in Hblank. case_decide as Hb; [done|].
        destruct (truthy (get_prop c "lead_source")); [done|]. by exfalso; apply Hb.
      * intros s Hs Hne Hsub. specialize (Hmain s Hs Hne). apply Hall in Hmain.
        assert (c ∈ match_lead_source [c] s) as Hc
          by (apply match_lead_source_elem; split; [left|done]).
        rewrite Hmain in Hc. by apply elem_of_nil in Hc.
    + intros [Htruthy Hnone] k v Hk.
      assert (k ∈ dom (lead_sources main [c])) as Hin by (apply elem_of_dom; eauto).
      rewrite Hdom, elem_of_union, elem_of_singleton, elem_of_list_to_set,
        list_elem_of_fmap in Hin.
      destruct (decide (k = "no_lead_source")) as [->|Hne].
      * rewrite Hblank in Hk. injection Hk as <-. unfold match_blank_lead_source.
        rewrite filter_cons. case_decide as Hb; [|done].
        destruct (truthy (get_prop c "lead_source")); done.
      * destruct Hin as [?|(s & -> & Hs)]; [done|].
        rewrite (Hmain s Hs Hne) in Hk. injection Hk as <-.
        destruct (match_lead_source [c] s) as [|c' l] eqn:E; [done|].
        exfalso. apply (Hnone s Hs Hne).
        assert (c' ∈ match_lead_source [c] s) as Hc' by (rewrite E; left).
        apply match_lead_source_elem in Hc' as [Hc' Hsub].
        apply list_elem_of_singleton in Hc'. by subst.
Qed.

Lemma append_assoc (a b c : string) : (a +:+ b) +:+ c = a +:+ (b +:+ c).
Proof.
  induction a as [|x a IH]; [done|].
  change (String x ((a +:+ b) +:+ c) = String x (a +:+ b +:+ c)). by f_equal.
Qed.

Lemma substring_of_trans a b c :
  Str.substring_of a b → Str.substring_of b c → Str.substring_of a c.
Proof.
  intros (a1 & a2 & ->) (b1 & b2 & ->). exists (b1 +:+ a1), (a2 +:+ b2).
  by rewrite !append_assoc.
Qed.

Lemma filter_sublist_impl {A} (P Q : A → Prop) `{∀ x, Decision (P x)} `{∀ x, Decision (Q x)}
    (l : list A) :
  (∀ x, P x → Q x) → filter P l `sublist_of` filter Q l.
Proof.
  intros HPQ. induction l as [|x l IH]; [done|].
  rewrite !filter_cons. destruct (decide (P x)) as [HP|HP].
  - rewrite decide_True by auto. by apply sublist_skip.
  - destruct (decide (Q x)); [by apply sublist_cons|done].
Qed.

(** X13: when a configured name occurs in another one, letter case aside,
    the leads of the longer name are among the leads of the shorter, in
    the same order: every one of them is counted under both names. *)
Theorem nested_names_nested_buckets (lc : list contact) (k1 k2 : string) :
  Str.ci_substring_of k1 k2 →
  match_lead_source lc k2 `sublist_of` match_lead_source lc k1 ∧
  ∀ c, c ∈ match_lead_source lc k2 → c ∈ match_lead_source lc k1.
Proof.
  intros Hk.
  assert (match_lead_source lc k2 `sublist_of` match_lead_source lc k1) as Hsub.
  { unfold match_lead_source. apply filter_sublist_impl. intros c.
    rewrite !contains_spec. by apply substring_of_trans. }
  split; [done|]. intros c Hc. by eapply elem_of_sublist.
Qed.

Lemma nested_names_nested_buckets_witness :
  Str.ci_substring_of "face" "Facebook" ∧
  match_lead_source [Example.ann; Example.bob] "Facebook"
    `sublist_of` match_lead_source [Example.ann; Example.bob] "face".
Proof.
  assert (Hk : Str.ci_substring_of "face" "Facebook") by (by exists "", "book").
  split; [exact Hk|].
  exact (proj1 (nested_names_nested_buckets [Example.ann; Example.bob] "face" "Facebook" Hk)).
Defined.

(** ** Observed lead sources in the report *)

Section SourceFacts.

Context `{SetIteration}.

Lemma lead_sources_with_activity_spec (lsc : list contact) :
  NoDup (set_list (lead_sources_with_activity lsc)) ∧
  ∀ s, s ∈ set_list (lead_sources_with_activity lsc) ↔
       s ≠ "" ∧ ∃ c, c ∈ lsc ∧ get_prop c "lead_source" = PStr s.
Proof.
  split.
  - rewrite set_list_perm. apply NoDup_elements.
  - intros s. rewrite set_list_perm, elem_of_elements.
    unfold lead_sources_with_activity.
    rewrite elem_of_list_to_set, list_elem_of_omap.
    setoid_rewrite truthy_prop_Some. naive_solver.
Qed.

(** X14: the values the script groups are the distinct [lead_source] values
    of the fetched contacts that are not empty, so none is skipped: each
    is in the bucket of the first configured name that can take it, or
    in ["Other"], and in no other bucket; the keys of the dictionary stay
    the configured names and ["Other"]. *)
Theorem observed_sources_bucketed (main : list string) (lsc : list contact) :
  let srcs := set_list (lead_sources_with_activity lsc) in
  let grouped := group_sources main srcs in
  NoDup srcs ∧
  (∀ s, s ∈ srcs ↔ s ≠ "" ∧ ∃ c, c ∈ lsc ∧ get_prop c "lead_source" = PStr s) ∧
  (∀ k, is_Some (grouped !! k) ↔ k = "Other" ∨ k ∈ main) ∧
  ∀ s, s ∈ srcs →
    ∃ b, assigned_bucket main s b ∧
         (∃ l, grouped !! b = Some l ∧ s ∈ l) ∧
         (∀ k l, grouped !! k = Some l → s ∈ l → k = b).
Proof.
  intros srcs grouped.
  destruct (lead_sources_with_activity_spec lsc) as [Hnodup Hmem].
  assert (Forall (λ s, s ≠ "") srcs) as Hne.
  { apply Forall_forall. intros s Hs. by apply Hmem in Hs as [? _]. }
  pose proof (group_sources_inv main srcs Hne) as Hinv.
  split_and!; [done|done|apply group_sources_keys|].
  intros s Hs. destruct (assigned_bucket_total main s) as [b Hb]. exists b.
  split_and!; [done| |].
  - destruct (Hinv b) as [Hdom Hl].
    destruct (proj2 Hdom (assigned_bucket_key _ _ _ Hb)) as [l Hlb].
    exists l. split; [done|]. by apply (Hl l Hlb).
  - intros k l Hlk Hsl. destruct (Hinv k) as [_ Hl].
    apply (Hl l Hlk) in Hsl as [_ Hk]. by eapply assigned_bucket_fun.
Qed.

(** X15: when the configured names are distinct and none of them is
    ["Other"], the sub-sources the report goes through, bucket after
    bucket, are the observed lead sources, each of them once. *)
Theorem report_lists_each_source_once (main : list string) (lsc : list contact) :
  NoDup main →
  "Other" ∉ main →
  let srcs := set_list (lead_sources_with_activity lsc) in
  ((main ++ ["Other"]) ≫= sub_sources_of (group_sources main srcs)) ≡ₚ srcs.
Proof.
  intros Hmain Hother srcs.
  destruct (lead_sources_with_activity_spec lsc) as [Hnodup Hmem].
  assert (Forall (λ s, s ≠ "") srcs) as Hne.
  { apply Forall_forall. intros s Hs. by apply Hmem in Hs as [? _]. }
  pose proof (group_sources_inv main srcs Hne) as Hinv.
  assert (∀ name s,
            s ∈ sub_sources_of (group_sources main srcs) name ↔
            (name = "Other" ∨ name ∈ main) ∧ s ∈ srcs ∧ assigned_bucket main s name)
    as Hsub.
  { intros name s.
    destruct (sub_sources_of_spec (group_sources main srcs) name) as (_ & _ & ->).
    destruct (Hinv name) as [Hdom Hl].
    destruct (group_sources main srcs !! name) as [l|] eqn:Hlk; simpl.
    - rewrite (proj2 (Hl l eq_refl)). rewrite <- Hdom. naive_solver.
    - rewrite <- Hdom. split; [by intros ?%elem_of_nil|]. by intros [[??] _]. }
  apply NoDup_Permutation.
  - apply NoDup_bind.
    + intros n1 n2 s _ _ (_ & _ & H1)%Hsub (_ & _ & H2)%Hsub.
      by eapply assigned_bucket_fun.
    + intros name _. apply sub_sources_of_spec.
    + apply NoDup_app. split_and!; [done| |apply NoDup_singleton].
      intros x Hx ->%list_elem_of_singleton. done.
  - done.
  - intros s. rewrite list_elem_of_bind. split.
    + intros (name & (_ & Hs & _)%Hsub & _). done.
    + intros Hs. destruct (assigned_bucket_total main s) as [b Hb]. exists b. split.
      * apply Hsub. split_and!; [|done..].
        by apply assigned_bucket_key in Hb.
      * rewrite elem_of_app, list_elem_of_singleton.
        apply assigned_bucket_key in Hb as [?|?]; [by right|by left].
Qed.

Context {World : Type}.
Variable post : payload → World → response * World.

Lemma sub_sources_of_nil (grouped : gmap string (list string)) name :
  default [] (grouped !! name) = [] → sub_sources_of grouped name = [].
Proof.
  intros Hempty. destruct (sub_sources_of_spec grouped name) as (_ & _ & Hmem).
  destruct (sub_sources_of grouped name) as [|s subs]; [done|].
  exfalso. rewrite Hempty in Hmem. eapply elem_of_nil, Hmem. left.
Qed.

Lemma for_bucket_nothing clock fuel grouped names output_lead_source w :
  (∀ name, name ∈ names → default [] (grouped !! name) = []) →
  for_bucket post clock fuel grouped names output_lead_source w
    = Run (Return output_lead_source) w [].
Proof.
  induction names as [|name names IH]; intros Hempty; [done|].
  cbn [for_bucket]. rewrite sub_sources_of_nil by (apply Hempty; left).
  apply IH. intros n Hn. apply Hempty. by right.
Qed.

(** X16: without any lead source to report, every bucket is empty: the
    lead-source report has no line at all and no request is sent for
    it. *)
Theorem empty_lead_source_report cfg clock fuel w :
  build_lead_source_report post cfg clock fuel [] w = Run (Return []) w [] ∧
  Str.join Str.nl [] = "".
Proof.
  split; [|done]. unfold build_lead_source_report. apply for_bucket_nothing.
  intros name _. unfold group_sources. cbn [foldl].
  rewrite grouped_sources_init_lookup. by case_decide.
Qed.

End SourceFacts.

Lemma report_lists_each_source_once_witness :
  NoDup ["Facebook"; "Google"] ∧ ("Other" ∉ ["Facebook"; "Google"]) ∧
  ((["Facebook"; "Google"] ++ ["Other"])
     ≫= @sub_sources_of Example.in_elements_order
          (group_sources ["Facebook"; "Google"]
             (@set_list Example.in_elements_order
                (lead_sources_with_activity [Example.ann; Example.bob; Example.cho]))))
  ≡ₚ @set_list Example.in_elements_order
       (lead_sources_with_activity [Example.ann; Example.bob; Example.cho]).
Proof.
  assert (Hmain : NoDup ["Facebook"; "Google"])
    by (apply (bool_decide_unpack _); by vm_compute).
  assert (Hother : "Other" ∉ ["Facebook"; "Google"])
    by (apply (bool_decide_unpack _); by vm_compute).
  split; [exact Hmain|]. split; [exact Hother|].
  exact (@report_lists_each_source_once Example.in_elements_order
           ["Facebook"; "Google"] [Example.ann; Example.bob; Example.cho] Hmain Hother).
Defined.

(** ** The lead-source report and the order of iteration *)

Lemma group_sources_skip_empty main srcs :
  group_sources main srcs = group_sources main (filter (λ s, s ≠ "") srcs).
Proof.
  induction srcs as [|s srcs IH] using rev_ind; [done|].
  rewrite filter_app, group_sources_snoc, IH. rewrite filter_cons, filter_nil.
  destruct (decide (s ≠ "")) as [Hs|Hs].
  - by rewrite group_sources_snoc.
  - apply dec_stable in Hs as ->. by rewrite group_source_empty, app_nil_r.
Qed.

Lemma group_sources_elem main srcs k s :
  s ∈ default [] (group_sources main srcs !! k) ↔
  s ∈ srcs ∧ s ≠ "" ∧ assigned_bucket main s k.
Proof.
  rewrite group_sources_skip_empty.
  assert (Forall (λ s, s ≠ "") (filter (λ s, s ≠ "") srcs)) as Hne.
  { apply Forall_forall. by intros x [? _]%list_elem_of_filter. }
  destruct (group_sources_inv main _ Hne k) as [Hdom Hl].
  destruct (group_sources main (filter (λ s, s ≠ "") srcs) !! k) as [l|] eqn:Hlk; simpl.
  - rewrite (proj2 (Hl l eq_refl)), list_elem_of_filter. naive_solver.
  - split; [by intros ?%elem_of_nil|]. intros (_ & _ & Hb).
    apply assigned_bucket_key in Hb. apply Hdom in Hb as [??]. done.
Qed.

Lemma sub_sources_of_ext (I1 I2 : SetIteration) (g1 g2 : gmap string (list string)) name :
  (∀ s, s ∈ default [] (g1 !! name) ↔ s ∈ default [] (g2 !! name)) →
  @sub_sources_of I1 g1 name = @sub_sources_of I2 g2 name.
Proof.
  intros Hmem.
  destruct (@sub_sources_of_spec I1 g1 name) as (Hs1 & Hn1 & Hm1).
  destruct (@sub_sources_of_spec I2 g2 name) as (Hs2 & Hn2 & Hm2).
  apply (StronglySorted_unique String.le); [done..|].
  apply NoDup_Permutation; [done..|]. intros s. by rewrite Hm1, Hm2.
Qed.

Section OrderFacts.

Context {World : Type}.
Variable post : payload → World → response * World.

Lemma for_bucket_ext (I1 I2 : SetIteration) clock fuel g1 g2 names output_lead_source w :
  (∀ name, @sub_sources_of I1 g1 name = @sub_sources_of I2 g2 name) →
  @for_bucket World post I1 clock fuel g1 names output_lead_source w
  = @for_bucket World post I2 clock fuel g2 names output_lead_source w.
Proof.
  intros Hsub. revert output_lead_source w.
  induction names as [|name names IH]; intros acc w; [done|].
  cbn [for_bucket]. rewrite <- (Hsub name).
  destruct (@sub_sources_of I1 g1 name) as [|s subs]; [apply IH|].
  unfold mbind, M_bind, bind.
  destruct (for_sub_source post clock fuel (s :: subs) 0 [] w) as [[[n l]| |] w1 t1];
    [|done..].
  by rewrite IH.
Qed.

(** X22: the lead-source report does not depend on the order in which
    the observed lead sources are met, nor on how Python iterates over a
    set: for two lists with the same elements the report loop sends the
    same requests in the same order and builds the same lines. *)
Theorem lead_source_report_order_free (I1 I2 : SetIteration) cfg clock fuel
    (srcs1 srcs2 : list string) w :
  (∀ s, s ∈ srcs1 ↔ s ∈ srcs2) →
  @build_lead_source_report World post I1 cfg clock fuel srcs1 w
  = @build_lead_source_report World post I2 cfg clock fuel srcs2 w.
Proof.
  intros Hsame. unfold build_lead_source_report. apply for_bucket_ext.
  intros name. apply sub_sources_of_ext. intros s.
  rewrite !group_sources_elem, Hsame. done.
Qed.

End OrderFacts.

Lemma lead_source_report_order_free_witness :
  (∀ s, s ∈ ["TikTok"; "facebook ads"] ↔ s ∈ ["facebook ads"; "TikTok"; "facebook ads"]) ∧
  @build_lead_source_report unit Example.by_length Example.in_elements_order
    Example.team Example.clock 5 ["TikTok"; "facebook ads"] ()
  = @build_lead_source_report unit Example.by_length Example.in_reverse_order
      Example.team Example.clock 5 ["facebook ads"; "TikTok"; "facebook ads"] ().
Proof.
  assert (Hsame : ∀ s, s ∈ ["TikTok"; "facebook ads"]
                       ↔ s ∈ ["facebook ads"; "TikTok"; "facebook ads"]).
  { intros s. rewrite !elem_of_cons, !elem_of_nil. tauto. }
  split; [exact Hsame|].
  exact (lead_source_report_order_free Example.by_length Example.in_elements_order
           Example.in_reverse_order Example.team Example.clock 5 _ _ () Hsame).
Defined.

(** ** The owner reports and the order of iteration *)

Section OwnerOrderFacts.

Context {World : Type}.
Variable post : payload → World → response * World.
Variable cfg : config.
Variable clock : Z.

(** X23: the order of iteration over a set changes the order of the
    paragraphs of the two owner reports and nothing else: when the API
    counts [cnt_direct] and [cnt_cc] contacts, the paragraphs built under
    one order of iteration are those built under any other, each owner
    having one paragraph. *)
Theorem owner_reports_order_only (I1 I2 : SetIteration) fuel
    (cnt_direct : string → string → nat)
    (cnt_cc : string → option string → string → nat) (ls : lifecycle) w1 w2 :
  (∀ property sales_id w,
     outcome_of (get_count_contact_owner post clock fuel property sales_id w)
     = Return (cnt_direct property sales_id)) →
  (∀ property takeover_type sales_id w,
     outcome_of (get_count_secondary_owner post clock fuel property sales_id takeover_type w)
     = Return (cnt_cc property takeover_type sales_id)) →
  ∃ direct1 direct2 cc1 cc2,
    outcome_of (for_sales_direct post cfg clock fuel
                  (@set_list I1 (contact_owners_with_activity cfg ls)) [] w1)
      = Return direct1 ∧
    outcome_of (for_sales_direct post cfg clock fuel
                  (@set_list I2 (contact_owners_with_activity cfg ls)) [] w2)
      = Return direct2 ∧
    outcome_of (for_cc_to post cfg clock fuel
                  (@set_list I1 (secondary_owners_with_activity ls)) [] w1)
      = Return cc1 ∧
    outcome_of (for_cc_to post cfg clock fuel
                  (@set_list I2 (secondary_owners_with_activity ls)) [] w2)
      = Return cc2 ∧
    direct1 ≡ₚ direct2 ∧ cc1 ≡ₚ cc2 ∧
    length direct1 = size (contact_owners_with_activity cfg ls) ∧
    length cc1 = size (secondary_owners_with_activity ls).
Proof.
  intros Hdirect Hcc.
  exists (direct_paragraph_of cfg cnt_direct
            <$> @set_list I1 (contact_owners_with_activity cfg ls)),
         (direct_paragraph_of cfg cnt_direct
            <$> @set_list I2 (contact_owners_with_activity cfg ls)),
         (cc_paragraph_of cfg cnt_cc <$> @set_list I1 (secondary_owners_with_activity ls)),
         (cc_paragraph_of cfg cnt_cc <$> @set_list I2 (secondary_owners_with_activity ls)).
  split_and!.
  - by rewrite (for_sales_direct_outcome post cfg clock fuel cnt_direct).
  - by rewrite (for_sales_direct_outcome post cfg clock fuel cnt_direct).
  - by rewrite (for_cc_to_outcome post cfg clock fuel cnt_cc).
  - by rewrite (for_cc_to_outcome post cfg clock fuel cnt_cc).
  - by rewrite !set_list_perm.
  - by rewrite !set_list_perm.
  - by rewrite length_fmap, set_list_perm.
  - by rewrite length_fmap, set_list_perm.
Qed.

End OwnerOrderFacts.

Lemma owner_reports_order_only_witness :
  let ls := Lifecycle [Example.ann; Example.bob] [] [] [] [] [] in
  ∃ direct1 direct2,
    outcome_of (for_sales_direct Example.two_each Example.team Example.clock 5
                  (@set_list Example.in_elements_order
                     (contact_owners_with_activity Example.team ls)) [] ())
      = Return direct1 ∧
    outcome_of (for_sales_direct Example.two_each Example.team Example.clock 5
                  (@set_list Example.in_reverse_order
                     (contact_owners_with_activity Example.team ls)) [] ())
      = Return direct2 ∧
    direct1 ≡ₚ direct2.
Proof.
  intros ls.
  assert (Hdirect : ∀ property sales_id w,
            outcome_of (get_count_contact_owner Example.two_each Example.clock 5
                          property sales_id w) = Return 2%nat)
    by (intros property sales_id []; reflexivity).
  assert (Hcc : ∀ property takeover_type sales_id w,
            outcome_of (get_count_secondary_owner Example.two_each Example.clock 5
                          property sales_id takeover_type w) = Return 2%nat)
    by (intros property takeover_type sales_id []; reflexivity).
  destruct (owner_reports_order_only Example.two_each Example.team Example.clock
              Example.in_elements_order Example.in_reverse_order 5
              (λ _ _, 2%nat) (λ _ _ _, 2%nat) ls () () Hdirect Hcc)
    as (direct1 & direct2 & _ & _ & H1 & H2 & _ & _ & Hperm & _).
  exists direct1, direct2. split; [exact H1|]. split; [exact H2|exact Hperm].
Defined.

(** ** The keys of the output record *)

(** X17: the output record has the nineteen fixed keys and the lower-case
    form of every configured lead-source name, and no other key.  The
    entries written last cannot be replaced by a configured name: the
    number of created leads, the six lifecycle-stage counts and the three
    reports are always the values computed. *)
Theorem output_schema cfg la lc ls r1 r2 r3 :
  dom (output cfg la lc ls r1 r2 r3)
    = list_to_set fixed_output_keys ∪ list_to_set (Str.lower <$> main_lead_source cfg) ∧
  output cfg la lc ls r1 r2 r3 !! "total_lead_create" = Some (OInt (Z.of_nat (length lc))) ∧
  (∀ k v, (k, v) ∈ lifecycle_items ls →
          output cfg la lc ls r1 r2 r3 !! k = Some (OInt (Z.of_nat (length v)))) ∧
  output cfg la lc ls r1 r2 r3 !! "CC TO Report" = Some (OStr (Str.join Str.nl r1)) ∧
  output cfg la lc ls r1 r2 r3 !! "Sales Direct Report" = Some (OStr (Str.join Str.nl r2)) ∧
  output cfg la lc ls r1 r2 r3 !! "Lead Source Report" = Some (OStr (Str.join Str.nl r3)).
Proof.
  split_and!.
  - unfold output, lens, lead_types.
    repeat (rewrite dom_insert_L || rewrite dom_union_L || rewrite dom_fmap_L).
    rewrite dom_empty_L, lead_sources_dom, dom_list_to_map_L.
    unfold fixed_output_keys, lifecycle_items. simpl. set_solver.
  - unfold output. rewrite !lookup_insert_ne by discriminate.
    rewrite lookup_union_r by (apply lifecycle_lens_lookup_None; simpl; set_solver).
    by rewrite lookup_insert_eq.
  - intros k v Hkv. unfold output.
    unfold lifecycle_items in Hkv.
    repeat (apply elem_of_cons in Hkv as [[= -> ->]|Hkv];
            [rewrite !lookup_insert_ne by discriminate;
             erewrite lookup_union_Some_l; [done|];
             unfold lens; rewrite lookup_fmap; by vm_compute|]).
    by apply elem_of_nil in Hkv.
  - unfold output. rewrite !lookup_insert_ne by discriminate. by rewrite lookup_insert_eq.
  - unfold output. rewrite !lookup_insert_ne by discriminate. by rewrite lookup_insert_eq.
  - unfold output. by rewrite lookup_insert_eq.
Qed.

(** ** Requests of the whole script *)

Section ScriptTrace.

Context {World : Type}.
Variable post : payload → World → response * World.
Context `{SetIteration}.
Variable cfg : config.
Variable clock : Z.

Lemma fetch_within fuel property_name eqs properties w :
  Forall (λ f, operator_of f = EQ) eqs →
  trace_within (windowed clock) (retry_sleep 3)
    (trace_of (fetch post fuel (between_filter clock property_name ++ eqs) properties w)).
Proof.
  intros Heqs. unfold fetch, fetch_all_hubspot_contacts. apply while_pages_within.
  - intros after. split; [done|]. by exists property_name, eqs.
  - by left.
  - apply Forall_forall. intros a Ha%elem_of_range. right. by exists a.
Qed.

Lemma eq_filter_EQ property_name value :
  Forall (λ f, operator_of f = EQ) (eq_filter property_name value).
Proof. by repeat constructor. Qed.

Lemma get_count_contact_owner_within fuel property_name sales_id w :
  trace_within (windowed clock) (retry_sleep 3)
    (trace_of (get_count_contact_owner post clock fuel property_name sales_id w)).
Proof.
  unfold get_count_contact_owner. apply trace_within_bind.
  - apply fetch_within, eq_filter_EQ.
  - intros. apply trace_within_nil.
Qed.

Lemma get_count_secondary_owner_within fuel property_name sales_id takeover_type w :
  trace_within (windowed clock) (retry_sleep 3)
    (trace_of (get_count_secondary_owner post clock fuel property_name sales_id
                 takeover_type w)).
Proof.
  unfold get_count_secondary_owner. apply trace_within_bind.
  - destruct takeover_type as [t|]; [destruct (Str.truthy t)|].
    + rewrite <- app_assoc. apply fetch_within, Forall_app. split; apply eq_filter_EQ.
    + apply fetch_within, eq_filter_EQ.
    + apply fetch_within, eq_filter_EQ.
  - intros. apply trace_within_nil.
Qed.

Lemma get_count_lead_source_within fuel source w :
  trace_within (windowed clock) (retry_sleep 3)
    (trace_of (get_count_lead_source post clock fuel source w)).
Proof.
  unfold get_count_lead_source. apply trace_within_bind.
  - apply fetch_within, eq_filter_EQ.
  - intros. apply trace_within_nil.
Qed.

Lemma for_sales_direct_within fuel owners output_sales_direct w :
  trace_within (windowed clock) (retry_sleep 3)
    (trace_of (for_sales_direct post cfg clock fuel owners output_sales_direct w)).
Proof.
  revert output_sales_direct w. induction owners as [|sales_id rest IH]; intros acc w.
  - apply trace_within_nil.
  - cbn [for_sales_direct].
    do 3 (apply trace_within_bind; [apply get_count_contact_owner_within|intros]).
    apply IH.
Qed.

Lemma for_cc_to_within fuel owners output_cc_to w :
  trace_within (windowed clock) (retry_sleep 3)
    (trace_of (for_cc_to post cfg clock fuel owners output_cc_to w)).
Proof.
  revert output_cc_to w. induction owners as [|sales_id rest IH]; intros acc w.
  - apply trace_within_nil.
  - cbn [for_cc_to].
    do 5 (apply trace_within_bind; [apply get_count_secondary_owner_within|intros]).
    apply IH.
Qed.

Lemma for_sub_source_within fuel sub_sources main_count sub_lines w :
  trace_within (windowed clock) (retry_sleep 3)
    (trace_of (for_sub_source post clock fuel sub_sources main_count sub_lines w)).
Proof.
  revert main_count sub_lines w. induction sub_sources as [|s rest IH]; intros n l w.
  - apply trace_within_nil.
  - cbn [for_sub_source].
    apply trace_within_bind; [apply get_count_lead_source_within|intros].
    apply IH.
Qed.

Lemma for_bucket_within fuel grouped names output_lead_source w :
  trace_within (windowed clock) (retry_sleep 3)
    (trace_of (for_bucket post clock fuel grouped names output_lead_source w)).
Proof.
  revert output_lead_source w. induction names as [|name rest IH]; intros acc w.
  - apply trace_within_nil.
  - cbn [for_bucket]. destruct (sub_sources_of grouped name) as [|s subs]; [apply IH|].
    apply trace_within_bind; [apply for_sub_source_within|].
    intros [main_count sub_lines] w1. apply IH.
Qed.

(** X18: whatever the API answers and however long the script runs, every
    request it sends asks for at most 100 contacts a page and is
    restricted to the time window: its first filter is [BETWEEN
    start_timestamp AND end_timestamp] on some property and the others
    are [EQ] filters.  Every request comes directly after a sleep of
    0.2 s, and no sleep is longer than 1.5 s. *)
Theorem script_requests_windowed fuel w :
  let t := trace_of (script post cfg clock fuel w) in
  (∀ p, p ∈ posts t →
     limit_of p = 100 ∧
     ∃ property_name eqs,
       filters_of p =
         {| propertyName := property_name; operator_of := BETWEEN;
            value := FInt (start_timestamp clock);
            highValue := Some (FInt (end_timestamp clock)) |} :: eqs
       ∧ Forall (λ f, operator_of f = EQ) eqs) ∧
  (∀ pre p rest, t = pre ++ Post p :: rest → ∃ pre', pre = pre' ++ [Sleep 200]) ∧
  (∀ ms, ms ∈ sleeps t → ms ∈ [200; 500; 1000; 1500]).
Proof.
  intros t.
  assert (trace_within (windowed clock) (retry_sleep 3) t) as (Hpaced & Hposts & Hsleeps).
  { unfold t, script.
    do 3 (apply trace_within_bind;
          [rewrite <- (app_nil_r (between_filter _ _)); by apply fetch_within|intros]).
    apply trace_within_bind;
      [rewrite <- (app_nil_r (between_filter _ _)); by apply fetch_within|intros].
    do 2 (apply trace_within_bind; [apply fetch_within, eq_filter_EQ|intros]).
    do 3 (apply trace_within_bind;
          [rewrite <- (app_nil_r (between_filter _ _)); by apply fetch_within|intros]).
    apply trace_within_bind; [apply for_sales_direct_within|intros].
    apply trace_within_bind; [apply for_cc_to_within|intros].
    apply trace_within_bind; [apply for_bucket_within|intros].
    apply trace_within_nil. }
  split_and!.
  - intros p Hp.
    assert (windowed clock p) as [Hlimit (name & eqs & Hf & Heqs)]
      by (by eapply Forall_forall in Hposts).
    split; [done|]. by exists name, eqs.
  - intros pre p rest E. by eapply paced_post_inv.
  - intros ms Hms.
    assert (retry_sleep 3 ms) as [->|(a & Ha & ->)]
      by (by eapply Forall_forall in Hsleeps).
    + set_solver.
    + unfold backoff.
      assert (a = 0 ∨ a = 1 ∨ a = 2) as [E|[E|E]] by lia; subst a; set_solver.
Qed.

End ScriptTrace.

(** ** Runs of the whole script *)

Section ScriptRuns.

Context {World : Type}.
Variable post : payload → World → response * World.
Context `{SetIteration}.
Variable cfg : config.
Variable clock : Z.

(** X19: when the answer to the first request has a status other than 200
    and 429, the script ends there with the API error: it sends no
    further request and builds no report. *)
Theorem script_stops_at_api_error fuel w r w1 :
  post (first_request clock) w = (r, w1) →
  status_code r ≠ 200 →
  status_code r ≠ 429 →
  script post cfg clock (S fuel) w =
    Run (Raise (Exception ("HubSpot API error: " +:+ pretty (status_code r)
                             +:+ " - " +:+ text r)))
        w1 [Sleep 200; Post (first_request clock)].
Proof.
  intros Hpost H200 H429. unfold script. apply bind_raise.
  unfold fetch, fetch_all_hubspot_contacts. apply while_pages_raise.
  change (range default_retries) with (0 :: [1; 2]).
  rewrite for_attempt_cons. fold (first_request clock). rewrite Hpost.
  apply Z.eqb_neq in H200 as ->. apply Z.eqb_neq in H429 as ->. done.
Qed.

Lemma returned_after_bind {A B} (m : M World A) (k : A → M World B) w n1 n2 a b :
  returned_after n1 (m w) a →
  returned_after n2 (k a (world_of (m w))) b →
  returned_after (n1 + n2) ((m ≫= k) w) b.
Proof.
  unfold returned_after, mbind, M_bind, bind.
  destruct (m w) as [o w1 t1]. simpl. intros (-> & Hn1 & Hs1).
  destruct (k a w1) as [o2 w2 t2]. simpl. intros (-> & Hn2 & Hs2).
  unfold posts, sleeps in *. rewrite !omap_app, length_app, Hn1, Hn2, Hs1, Hs2.
  by rewrite replicate_add.
Qed.

Lemma returned_after_ret {A} (a : A) (w : World) : returned_after 0 ((mret a : M World A) w) a.
Proof. done. Qed.

Variable answer : payload → list contact.
Hypothesis Hanswer : answers_with post answer.

Lemma returned_after_eq {A} n (x : run World A) (a b : A) :
  a = b → returned_after n x a → returned_after n x b.
Proof. by intros ->. Qed.

Lemma fetch_answer fuel filters properties w :
  returned_after 1 (fetch post (S fuel) filters properties w)
    (answer (first_page filters properties)).
Proof.
  unfold fetch, fetch_all_hubspot_contacts. fold (first_page filters properties).
  destruct (post (first_page filters properties) w) as [r w1] eqn:Hp.
  destruct (Hanswer (first_page filters properties) w) as (H200 & Hcur & Hres).
  rewrite Hp in H200, Hcur, Hres. simpl in H200, Hcur, Hres.
  erewrite while_pages_unfold
    by (change (range default_retries) with (0 :: [1; 2]); by apply for_attempt_ok).
  rewrite Hcur. cbn [negb]. rewrite <- Hres. done.
Qed.

Lemma count_answer fuel filters w :
  returned_after 1 ((r ← fetch post (S fuel) filters None ; mret (length r)) w)
    (length (answer (first_page filters None))).
Proof.
  change 1%nat with (1 + 0)%nat.
  eapply returned_after_bind; [apply fetch_answer|]. apply returned_after_ret.
Qed.

Lemma get_count_contact_owner_answer fuel property_name sales_id w :
  returned_after 1 (get_count_contact_owner post clock (S fuel) property_name sales_id w)
    (answered_direct answer clock property_name sales_id).
Proof. apply count_answer. Qed.

Lemma get_count_secondary_owner_answer fuel property_name sales_id takeover_type w :
  returned_after 1
    (get_count_secondary_owner post clock (S fuel) property_name sales_id takeover_type w)
    (answered_secondary answer clock property_name takeover_type sales_id).
Proof.
  unfold get_count_secondary_owner, answered_secondary.
  destruct takeover_type as [t|]; [destruct (Str.truthy t)|];
    rewrite ?app_nil_r, ?app_assoc; apply count_answer.
Qed.

Lemma get_count_lead_source_answer fuel source w :
  returned_after 1 (get_count_lead_source post clock (S fuel) source w)
    (answered_source answer clock source).
Proof. apply count_answer. Qed.

Lemma for_sales_direct_answer fuel owners output_sales_direct w :
  returned_after (3 * length owners)
    (for_sales_direct post cfg clock (S fuel) owners output_sales_direct w)
    (output_sales_direct
     ++ (direct_paragraph_of cfg (answered_direct answer clock) <$> owners)).
Proof.
  revert output_sales_direct w. induction owners as [|sales_id rest IH]; intros acc w.
  - rewrite fmap_nil, app_nil_r. apply returned_after_ret.
  - cbn [for_sales_direct].
    replace (3 * length (sales_id :: rest))%nat
      with (1 + (1 + (1 + 3 * length rest)))%nat by (simpl; lia).
    eapply returned_after_bind; [apply get_count_contact_owner_answer|].
    eapply returned_after_bind; [apply get_count_contact_owner_answer|].
    eapply returned_after_bind; [apply get_count_contact_owner_answer|].
    eapply returned_after_eq; [|apply IH].
    by rewrite fmap_cons, <- app_assoc.
Qed.

Lemma for_cc_to_answer fuel owners output_cc_to w :
  returned_after (5 * length owners)
    (for_cc_to post cfg clock (S fuel) owners output_cc_to w)
    (output_cc_to ++ (cc_paragraph_of cfg (answered_secondary answer clock) <$> owners)).
Proof.
  revert output_cc_to w. induction owners as [|sales_id rest IH]; intros acc w.
  - rewrite fmap_nil, app_nil_r. apply returned_after_ret.
  - cbn [for_cc_to].
    replace (5 * length (sales_id :: rest))%nat
      with (1 + (1 + (1 + (1 + (1 + 5 * length rest)))))%nat by (simpl; lia).
    do 5 (eapply returned_after_bind; [apply get_count_secondary_owner_answer|]).
    eapply returned_after_eq; [|apply IH].
    by rewrite fmap_cons, <- app_assoc.
Qed.

Lemma for_sub_source_answer fuel sub_sources main_count sub_lines w :
  returned_after (length sub_sources)
    (for_sub_source post clock (S fuel) sub_sources main_count sub_lines w)
    ((main_count + sum_list (answered_source answer clock <$> sub_sources))%nat,
     sub_lines ++ ((λ s, count_line s (answered_source answer clock s)) <$> sub_sources)).
Proof.
  revert main_count sub_lines w. induction sub_sources as [|s rest IH]; intros n l w.
  - simpl. rewrite Nat.add_0_r, app_nil_r. apply returned_after_ret.
  - cbn [for_sub_source]. change (length (s :: rest)) with (1 + length rest)%nat.
    eapply returned_after_bind; [apply get_count_lead_source_answer|].
    eapply returned_after_eq; [|apply IH].
    simpl. by rewrite Nat.add_assoc, <- app_assoc.
Qed.

Lemma for_bucket_answer fuel grouped names output_lead_source w :
  returned_after (length (names ≫= sub_sources_of grouped))
    (for_bucket post clock (S fuel) grouped names output_lead_source w)
    (output_lead_source
     ++ (names ≫= λ name, bucket_block (answered_source answer clock) name
                            (sub_sources_of grouped name))).
Proof.
  revert output_lead_source w. induction names as [|name rest IH]; intros acc w.
  - simpl. rewrite app_nil_r. apply returned_after_ret.
  - cbn [for_bucket].
    change ((name :: rest) ≫= sub_sources_of grouped)
      with (sub_sources_of grouped name ++ (rest ≫= sub_sources_of grouped)).
    change ((name :: rest) ≫= λ name, bucket_block (answered_source answer clock) name
                                        (sub_sources_of grouped name))
      with (bucket_block (answered_source answer clock) name (sub_sources_of grouped name)
            ++ (rest ≫= λ name, bucket_block (answered_source answer clock) name
                                  (sub_sources_of grouped name))).
    rewrite length_app.
    destruct (sub_sources_of grouped name) as [|s subs] eqn:Hsubs; [apply IH|].
    eapply returned_after_bind; [apply for_sub_source_answer|].
    eapply returned_after_eq; [|apply IH].
    unfold bucket_block, count_line. cbn [app Nat.add].
    repeat (rewrite <- app_assoc || rewrite <- app_comm_cons || rewrite app_nil_l).
    reflexivity.
Qed.

(** X20: when the API answers every request at once with a single page
    and the contacts of that page depend on the request alone, the script
    runs to its end and returns the output record built from those
    answers: the lists of contacts are the answers to the nine list
    queries, every count is the size of the answer to its count query,
    the owner reports have one paragraph per owner of the lifecycle
    lists, in set order, and the lead-source report is made of the
    blocks of the buckets.  The script sends nine requests for the lists,
    three for every sales-direct owner, five for every secondary owner
    and one for every sub-source of the lead-source report; it sleeps
    0.2 s before each and at no other time. *)
Theorem script_on_single_pages fuel w :
  let list_properties := Some ["email"; "lead_type"; "lead_source"] in
  let leads_allocate :=
    answer (first_page
              (between_filter clock "date_entered__new_lead__new_lifecycle_stage_pipeline__")
              list_properties) in
  let leads_create :=
    answer (first_page (between_filter clock "createdate") list_properties) in
  let lead_source_create_count :=
    answer (first_page (between_filter clock "createdate") (Some ["lead_source"])) in
  let lifecycle_stage :=
    {| contact_count :=
         answer (first_page
                   (between_filter clock
                      "date_entered__contact__new_lifecycle_stage_pipeline__")
                   owner_properties);
       take_over_call_count :=
         answer (first_page (between_filter clock "takeover_date_time"
                             ++ eq_filter "takeover_type" "TO Call") owner_properties);
       take_over_text_count :=
         answer (first_page (between_filter clock "takeover_date_time"
                             ++ eq_filter "takeover_type" "TO Text") owner_properties);
       zoom_book_count :=
         answer (first_page (between_filter clock zoom_booked) owner_properties);
       zoom_attend_count :=
         answer (first_page (between_filter clock zoom_attended) owner_properties);
       deal_negotiation_count :=
         answer (first_page (between_filter clock deal_negotiation) owner_properties) |} in
  let direct := set_list (contact_owners_with_activity cfg lifecycle_stage) in
  let secondary := set_list (secondary_owners_with_activity lifecycle_stage) in
  let grouped :=
    group_sources (main_lead_source cfg)
      (set_list (lead_sources_with_activity lead_source_create_count)) in
  let names := main_lead_source cfg ++ ["Other"] in
  let n := (9 + 3 * length direct + 5 * length secondary
            + length (names ≫= sub_sources_of grouped))%nat in
  let x := script post cfg clock (S fuel) w in
  outcome_of x =
    Return (output cfg leads_allocate leads_create lifecycle_stage
              (cc_paragraph_of cfg (answered_secondary answer clock) <$> secondary)
              (direct_paragraph_of cfg (answered_direct answer clock) <$> direct)
              (names ≫= λ name, bucket_block (answered_source answer clock) name
                                  (sub_sources_of grouped name))) ∧
  length (posts (trace_of x)) = n ∧
  sleeps (trace_of x) = replicate n 200 ∧
  length direct = size (contact_owners_with_activity cfg lifecycle_stage) ∧
  length secondary = size (secondary_owners_with_activity lifecycle_stage).
Proof.
  intros list_properties leads_allocate leads_create lead_source_create_count
    lifecycle_stage direct secondary grouped names n x.
  assert (returned_after
            (1 + (1 + (1 + (1 + (1 + (1 + (1 + (1 + (1 +
               (3 * length direct + (5 * length secondary
                + (length (names ≫= sub_sources_of grouped) + 0))))))))))))
            x (output cfg leads_allocate leads_create lifecycle_stage
                 (cc_paragraph_of cfg (answered_secondary answer clock) <$> secondary)
                 (direct_paragraph_of cfg (answered_direct answer clock) <$> direct)
                 (names ≫= λ name, bucket_block (answered_source answer clock) name
                                     (sub_sources_of grouped name)))) as (Ho & Hn & Hs).
  { unfold x, script.
    do 9 (eapply returned_after_bind; [apply fetch_answer|]).
    eapply returned_after_bind; [apply for_sales_direct_answer|].
    eapply returned_after_bind; [apply for_cc_to_answer|].
    eapply returned_after_bind; [apply for_bucket_answer|].
    apply returned_after_ret. }
  split_and!.
  - exact Ho.
  - rewrite Hn. unfold n. lia.
  - rewrite Hs. f_equal. unfold n. lia.
  - unfold direct. by rewrite set_list_perm.
  - unfold secondary. by rewrite set_list_perm.
Qed.

End ScriptRuns.

Section CountFacts.

Context {World : Type}.
Variable post : payload → World → response * World.
Variable clock : Z.

(** X21: [get_count_secondary_owner] asks for the contacts in the time
    window on [property_name] whose [secondary_owner] is [sales_id], and
    adds the filter on [takeover_type] only when one is given and is not
    empty.  When the pages are each answered with status 200, the count
    is the number of contacts on all pages together. *)
Theorem get_count_secondary_owner_total fuel property_name sales_id takeover_type
    w bodies w' :
  let filters :=
    between_filter clock property_name ++ eq_filter "secondary_owner" sales_id
    ++ match takeover_type with
       | Some t => if Str.truthy t then eq_filter "takeover_type" t else []
       | None => []
       end in
  paged post filters None default_limit None w bodies w' →
  (length bodies ≤ fuel)%nat →
  let x := get_count_secondary_owner post clock fuel property_name sales_id takeover_type w in
  outcome_of x = Return (length (bodies ≫= page_results)) ∧
  world_of x = w' ∧
  posts (trace_of x) = page_requests filters None default_limit None bodies ∧
  Forall (λ p, filters_of p = filters ∧ properties_of p = ["email"])
    (posts (trace_of x)).
Proof.
  intros filters Hpaged Hfuel x.
  assert (x = Run (Return (length (bodies ≫= page_results))) w'
                ((page_requests filters None default_limit None bodies
                  ≫= (λ p, [Sleep 200; Post p])) ++ [])) as ->.
  { unfold x, get_count_secondary_owner.
    erewrite bind_run; last first.
    { unfold fetch, fetch_all_hubspot_contacts.
      assert (match takeover_type with
              | Some t =>
                  if Str.truthy t
                  then (between_filter clock property_name
                        ++ eq_filter "secondary_owner" sales_id)
                       ++ eq_filter "takeover_type" t
                  else between_filter clock property_name
                       ++ eq_filter "secondary_owner" sales_id
              | None => between_filter clock property_name
                        ++ eq_filter "secondary_owner" sales_id
              end = filters) as ->.
      { unfold filters. destruct takeover_type as [t|]; [destruct (Str.truthy t)|];
          by rewrite <- ?app_assoc, ?app_nil_r. }
      apply (while_pages_paged post filters None default_limit default_retries None w bodies w');
        [done|done|done]. }
    done. }
  cbn [outcome_of world_of trace_of]. rewrite app_nil_r.
  assert (posts (page_requests filters None default_limit None bodies
                 ≫= (λ p, [Sleep 200; Post p]))
          = page_requests filters None default_limit None bodies) as ->.
  { generalize (page_requests filters None default_limit None bodies) as requests.
    induction requests as [|p ps IH]; [done|]. simpl. by f_equal. }
  split_and!; [done..|].
  generalize (@None string) as after. clear.
  induction bodies as [|b bodies IH]; intros after; [done|].
  simpl. constructor; [done|apply IH].
Qed.

End CountFacts.

Lemma script_stops_at_api_error_witness :
  @script unit Example.broken Example.in_elements_order Example.team Example.clock 1 () =
    Run (Raise (Exception "HubSpot API error: 500 - Internal Server Error")) ()
        [Sleep 200; Post (first_request Example.clock)].
Proof.
  assert (Hpost : Example.broken (first_request Example.clock) ()
                  = (Response 500 "Internal Server Error" (Body None None), ()))
    by reflexivity.
  assert (H200 : status_code (Response 500 "Internal Server Error" (Body None None)) ≠ 200)
    by discriminate.
  assert (H429 : status_code (Response 500 "Internal Server Error" (Body None None)) ≠ 429)
    by discriminate.
  exact (@script_stops_at_api_error unit Example.broken Example.in_elements_order Example.team
           Example.clock 0 () _ _ Hpost H200 H429).
Defined.

Lemma script_on_single_pages_witness :
  answers_with Example.two_each (λ _, [Example.ann; Example.bob]) ∧
  length (posts (trace_of (@script unit Example.two_each Example.in_elements_order
                             Example.team Example.clock 1 ()))) = 17%nat.
Proof.
  assert (Hanswer : answers_with Example.two_each (λ _, [Example.ann; Example.bob]))
    by (intros p w; split_and!; reflexivity).
  split; [exact Hanswer|].
  pose proof (@script_on_single_pages unit Example.two_each Example.in_elements_order
                Example.team Example.clock (λ _, [Example.ann; Example.bob]) Hanswer 0 ())
    as (_ & Hn & _).
  etrans; [exact Hn|]. by vm_compute.
Defined.

Lemma get_count_secondary_owner_total_witness :
  outcome_of (get_count_secondary_owner Example.two_pages Example.clock 5
                "takeover_date_time" "a" (Some "TO Call") ()) = Return 3%nat.
Proof.
  pose (filters := between_filter Example.clock "takeover_date_time"
                   ++ eq_filter "secondary_owner" "a" ++ eq_filter "takeover_type" "TO Call").
  pose (b1 := Body (Some [Example.ann; Example.bob])
                (Some (Paging (Some (PagingNext (Some "2")))))).
  pose (b2 := Body (Some [Example.cho]) (Some (Paging None))).
  assert (Hp : paged Example.two_pages filters None default_limit None () [b1; b2] ()).
  { eapply (paged_next Example.two_pages filters None default_limit None ()
              (Response 200 "" b1) ()); [reflexivity..|].
    eapply (paged_last Example.two_pages filters None default_limit (Some "2") ()
              (Response 200 "" b2) ()); reflexivity. }
  assert (Hfuel : (length [b1; b2] ≤ 5)%nat) by (simpl; lia).
  exact (proj1 (get_count_secondary_owner_total Example.two_pages Example.clock 5
                  "takeover_date_time" "a" (Some "TO Call") () [b1; b2] () Hp Hfuel)).
Defined.
